(** * Route parameters of goyave: brace scanner, pattern compiler, binder

    A shallow embedding of [parametrizeable.go] (package goyave) and the
    verification of its specification.

    - A Go [string] is a sequence of bytes: [list ascii].
    - Go [int] offsets into a string are modelled by [nat]: they range over
      [0 .. len(s)], far from the 64-bit bound, so no wrap-around can occur.
      The nesting level of the scanner is decremented below zero by the
      code, so it is a [Z].
    - A panic (or a returned error) is a value of type [panic]; functions
      that can panic return a [result].
    - [map[string]string] is a [gmap (list ascii) (list ascii)].
    - The host matching engine ([regexp] of the Go standard library) is an
      interface, [RegexpEngine]; the general theorems hold for every
      engine, the worked examples use the instance [Backtrack.engine]. *)

From stdpp Require Import gmap strings list.
From Stdlib Require Import ZArith Lia.
From Stdlib Require Import Strings.Ascii.
From Stdlib Require Strings.String.

Local Open Scope Z_scope.
Local Open Scope nat_scope.
Local Open Scope list_scope.

(** ** Strings and panics *)

Abbreviation gostring := (list ascii).

(** A string literal of the source. *)
Definition str (s : string) : gostring := String.list_ascii_of_string s.

Definition lbrace : ascii := "{"%char.
Definition rbrace : ascii := "}"%char.
Definition colon : ascii := ":"%char.

(** The values the code panics with (or returns as [error]). *)
Inductive panic : Type :=
| UnbalancedBraces (s : gostring)          (* "unbalanced braces in %q" *)
| EmptyPlaceholder (s : gostring)          (* "empty route parameter in %q" *)
| MissingParameterName (sub : gostring)    (* "... missing name in %q" *)
| MissingParameterPattern (sub : gostring) (* "... missing pattern in %q" *)
| InvalidPattern (pattern : gostring)      (* regexp.MustCompile panics *)
| UnexpectedCapturingGroup (uri : gostring)(* "route %s contains capture groups ..." *)
| IndexOutOfRange.                         (* runtime error: index or slice bounds *)

Inductive result (A : Type) : Type :=
| Ok (a : A)
| Err (e : panic).
Arguments Ok {A} a.
Arguments Err {A} e.

(** Sequencing up to the first panic, with stdpp's [x ← r; k]. *)
Global Instance result_bind : MBind result := fun A B k r =>
  match r with
  | Ok a => k a
  | Err e => Err e
  end.

Definition is_ok {A} (r : result A) : bool :=
  match r with Ok _ => true | Err _ => false end.

(** ** Slices

    [s[a:b]] panics unless [a <= b <= len(s)]; [s[a:]] unless
    [a <= len(s)]; [l[i]] unless [i < len(l)]. *)

Definition slice (s : gostring) (a b : nat) : result gostring :=
  if (a <=? b) && (b <=? length s) then Ok (take (b - a) (drop a s))
  else Err IndexOutOfRange.

Definition slice_from (s : gostring) (a : nat) : result gostring :=
  if a <=? length s then Ok (drop a s) else Err IndexOutOfRange.

Definition index {A} (l : list A) (i : nat) : result A :=
  match l !! i with
  | Some x => Ok x
  | None => Err IndexOutOfRange
  end.

(** ** braceIndices

    The loop [for i := 0; i < length; i++] reads [s[i]] for consecutive
    [i]: the model walks the bytes that remain, [rest], with the offset [i]
    of the first of them.  [s] is kept for the error message. *)

Fixpoint braceIndices_loop (s rest : gostring) (i : nat)
    (level : Z) (idx : nat) (indices : list nat) : result (list nat) :=
  match rest with
  | [] =>
      if negb (level =? 0)%Z then Err (UnbalancedBraces s) else Ok indices
  | c :: rest' =>
      if Ascii.eqb c lbrace then
        let level := (level + 1)%Z in
        let idx := if (level =? 1)%Z then i else idx in
        braceIndices_loop s rest' (S i) level idx indices
      else if Ascii.eqb c rbrace then
        let level := (level - 1)%Z in
        if (level =? 0)%Z then
          if i =? idx + 1 then Err (EmptyPlaceholder s)
          else braceIndices_loop s rest' (S i) level idx (indices ++ [idx; i])
        else if (level <? 0)%Z then Err (UnbalancedBraces s)
        else braceIndices_loop s rest' (S i) level idx indices
      else braceIndices_loop s rest' (S i) level idx indices
  end.

Definition braceIndices (s : gostring) : result (list nat) :=
  braceIndices_loop s s 0 0%Z 0 [].

(** ** The host matching engine

    [regexp.MustCompile] panics on an invalid expression ([None] here);
    [NumSubexp] is the number of parenthesised subexpressions;
    [FindStringSubmatch] returns [nil] ([None]) when there is no match and
    otherwise the text of the leftmost match followed by the text of each
    subexpression. *)

Class RegexpEngine : Type := {
  Regexp : Type;
  MustCompile : gostring -> option Regexp;
  NumSubexp : Regexp -> nat;
  FindStringSubmatch : Regexp -> gostring -> option (list gostring);
}.

(** ** compileParameters *)

Record parametrizeable `{RegexpEngine} : Type := {
  regex : option Regexp;          (* *regexp.Regexp, nil before compilation *)
  parameters : list gostring;
}.

(** [strings.SplitN(s, ":", 2)]: [cut] looks for the first separator. *)
Fixpoint cut (sep : ascii) (s : gostring) : option (gostring * gostring) :=
  match s with
  | [] => None
  | c :: s' =>
      if Ascii.eqb c sep then Some ([], s')
      else match cut sep s' with
           | Some (before, after) => Some (c :: before, after)
           | None => None
           end
  end.

Definition SplitN2 (s : gostring) (sep : ascii) : list gostring :=
  match cut sep s with
  | Some (before, after) => [before; after]
  | None => [s]
  end.

Definition default_pattern : gostring := str "[^/]+".

(** Lines 39-49 of [compileParameters]: the name and the pattern of one
    placeholder body [sub]. *)
Definition splitParameter (sub : gostring) : result (gostring * gostring) :=
  let parts := SplitN2 sub colon in
  name ← index parts 0;
  if bool_decide (name = []) then Err (MissingParameterName sub)
  else
    let pattern := default_pattern in
    if length parts =? 2 then
      pattern ← index parts 1;
      if bool_decide (pattern = []) then Err (MissingParameterPattern sub)
      else Ok (name, pattern)
    else Ok (name, pattern).

(** The loop [for i := 0; i < length; i += 2] over [idxs]: the model takes
    [idxs[i]] and [idxs[i+1]] from the front of what remains of [idxs].
    The state is [end], the builder and [p.parameters]. *)
Fixpoint compileParameters_loop (uri : gostring) (idxs : list nat)
    (end_ : nat) (builder : gostring) (params : list gostring)
  : result (nat * gostring * list gostring) :=
  match idxs with
  | [] => Ok (end_, builder, params)
  | [o] => _ ← slice uri end_ o; Err IndexOutOfRange
  | o :: c :: idxs' =>
      raw ← slice uri end_ o;
      let end_ := c in
      sub ← slice uri (o + 1) end_;
      '(name, pattern) ← splitParameter sub;
      let builder := builder ++ raw ++ str "(" ++ pattern ++ str ")" in
      let end_ := end_ + 1 in
      compileParameters_loop uri idxs' end_ builder (params ++ [name])
  end.

(** Lines 25-65: the pattern handed to [regexp.MustCompile] and the
    parameter names after the loop. *)
Definition assemblePattern (uri : gostring) (ends : bool) (idxs : list nat)
    (params : list gostring) : result (gostring * list gostring) :=
  let builder := str "^" in
  '(builder, params) ←
    (if 0 <? length idxs then
       '(end_, builder, params) ← compileParameters_loop uri idxs 0 builder params;
       tail ← slice_from uri end_;
       Ok (builder ++ tail, params)
     else Ok (builder ++ uri, params));
  let builder := if ends then builder ++ str "$" else builder in
  Ok (builder, params).

Definition compileParameters `{RegexpEngine} (p : parametrizeable)
    (uri : gostring) (ends : bool) : result parametrizeable :=
  idxs ← braceIndices uri;
  '(pattern, params) ← assemblePattern uri ends idxs (parameters p);
  match MustCompile pattern with
  | None => Err (InvalidPattern pattern)
  | Some re =>
      if negb (NumSubexp re =? length idxs / 2)
      then Err (UnexpectedCapturingGroup uri)
      else Ok {| regex := Some re; parameters := params |}
  end.

(** The zero value of the struct, on which routes and routers call
    [compileParameters]. *)
Definition new_parametrizeable `{RegexpEngine} : parametrizeable :=
  {| regex := None; parameters := [] |}.

(** ** makeParameters

    [for i, v := range match { params[names[i]] = v }]. *)
Fixpoint makeParameters_loop (match_ : list gostring) (i : nat)
    (names : list gostring) (params : gmap gostring gostring)
  : result (gmap gostring gostring) :=
  match match_ with
  | [] => Ok params
  | v :: match' =>
      name ← index names i;
      makeParameters_loop match' (S i) names (<[name := v]> params)
  end.

Definition makeParameters (match_ names : list gostring)
  : result (gmap gostring gostring) :=
  makeParameters_loop match_ 0 names ∅.

(** ** A matching engine for the worked examples

    A backtracking matcher for a fragment of the expressions of Go's
    [regexp] package: literal bytes, [.], bracket classes with ranges and
    negation, [^] and [$], concatenation, [|], the greedy operators [*],
    [+] and [?], capturing groups and [(?:...)], on ASCII text.  An
    expression outside the fragment (counted repetition, escapes of
    character classes, flags) is refused by [parse], which says nothing
    about what the package does with it.  Groups are numbered by their
    opening parenthesis, from 1; the preferred match is the leftmost one,
    alternatives tried in order (the semantics of the package). *)
Module Backtrack.

Inductive re : Type :=
| Eps
| Char (c : ascii)
| AnyChar
| Class (negated : bool) (ranges : list (ascii * ascii))
| BeginText
| EndText
| Cat (r1 r2 : re)
| Alt (r1 r2 : re)
| Star (r : re)
| Plus (r : re)
| Quest (r : re)
| Group (n : nat) (r : re).

Fixpoint groups (r : re) : nat :=
  match r with
  | Cat r1 r2 | Alt r1 r2 => groups r1 + groups r2
  | Star r | Plus r | Quest r => groups r
  | Group _ r => S (groups r)
  | _ => 0
  end.

(** *** Parsing *)

Definition is_meta (c : ascii) : bool :=
  bool_decide (c ∈ String.list_ascii_of_string "\.+*?()|[]{}^$").

Definition is_postfix (c : ascii) : bool :=
  bool_decide (c ∈ String.list_ascii_of_string "*+?").

Local Open Scope char_scope.

(** The items of a bracket class, up to the closing bracket. *)
Fixpoint parse_class (s : gostring) (acc : list (ascii * ascii))
  : option (list (ascii * ascii) * gostring) :=
  match s with
  | [] => None
  | "]" :: s1 => match acc with [] => None | _ => Some (acc, s1) end
  | "\" :: _ | "[" :: _ => None
  | c :: "-" :: "]" :: s2 => Some (acc ++ [(c, c); ("-", "-")], s2)
  | _ :: "-" :: "\" :: _ | _ :: "-" :: "[" :: _ => None
  | c :: "-" :: hi :: s2 =>
      if (nat_of_ascii c <=? nat_of_ascii hi)%nat
      then parse_class s2 (acc ++ [(c, hi)])
      else None
  | c :: s1 => parse_class s1 (acc ++ [(c, c)])
  end.

(** At most one repetition operator after an atom. *)
Definition parse_postfix (a : re) (s : gostring) : option (re * gostring) :=
  match s with
  | c :: s1 =>
      if is_postfix c then
        match s1 with
        | d :: _ => if is_postfix d then None else
                      Some (match c with "*" => Star a | "+" => Plus a | _ => Quest a end, s1)
        | [] => Some (match c with "*" => Star a | "+" => Plus a | _ => Quest a end, s1)
        end
      else Some (a, s)
  | [] => Some (a, s)
  end.

(** Recursive descent; [n] is the number of groups opened so far. *)
Fixpoint parse_alt (fuel : nat) (s : gostring) (n : nat)
  : option (re * gostring * nat) :=
  match fuel with
  | 0 => None
  | S f =>
      '(r1, s1, n1) ← parse_cat f s n;
      match s1 with
      | "|" :: s2 =>
          '(r2, s3, n2) ← parse_alt f s2 n1;
          Some (Alt r1 r2, s3, n2)
      | _ => Some (r1, s1, n1)
      end
  end
with parse_cat (fuel : nat) (s : gostring) (n : nat)
  : option (re * gostring * nat) :=
  match fuel with
  | 0 => None
  | S f =>
      match s with
      | [] | "|" :: _ | ")" :: _ => Some (Eps, s, n)
      | _ =>
          '(a, s1, n1) ← parse_atom f s n;
          '(a, s2) ← parse_postfix a s1;
          '(r, s3, n2) ← parse_cat f s2 n1;
          Some (Cat a r, s3, n2)
      end
  end
with parse_atom (fuel : nat) (s : gostring) (n : nat)
  : option (re * gostring * nat) :=
  match fuel with
  | 0 => None
  | S f =>
      match s with
      | [] => None
      | "(" :: "?" :: ":" :: s1 =>
          '(r, s2, n1) ← parse_alt f s1 n;
          match s2 with ")" :: s3 => Some (r, s3, n1) | _ => None end
      | "(" :: "?" :: _ => None
      | "(" :: s1 =>
          '(r, s2, n1) ← parse_alt f s1 (S n);
          match s2 with ")" :: s3 => Some (Group (S n) r, s3, n1) | _ => None end
      | "[" :: "^" :: s1 =>
          '(ranges, s2) ← parse_class s1 [];
          Some (Class true ranges, s2, n)
      | "[" :: s1 =>
          '(ranges, s2) ← parse_class s1 [];
          Some (Class false ranges, s2, n)
      | "." :: s1 => Some (AnyChar, s1, n)
      | "^" :: s1 => Some (BeginText, s1, n)
      | "$" :: s1 => Some (EndText, s1, n)
      | "\" :: d :: s1 => if is_meta d then Some (Char d, s1, n) else None
      | c :: s1 => if is_meta c then None else Some (Char c, s1, n)
      end
  end.

Definition parse (s : gostring) : option re :=
  match parse_alt (2 * length s + 4) s 0 with
  | Some (r, [], _) => Some r
  | _ => None
  end.

(** *** Matching *)

(** The span of each group, the whole match at index 0. *)
Abbreviation captures := (list (option (nat * nat))).
Abbreviation cont := (nat -> gostring -> captures -> option captures).

Definition in_class (negated : bool) (ranges : list (ascii * ascii))
    (c : ascii) : bool :=
  xorb negated
    (existsb (fun '(lo, hi) => (nat_of_ascii lo <=? nat_of_ascii c)%nat
                               && (nat_of_ascii c <=? nat_of_ascii hi)%nat) ranges).

(** Greedy iteration of [step]; an iteration has to consume input. *)
Fixpoint iterate (step : nat -> gostring -> captures -> cont -> option captures)
    (fuel : nat) (pos : nat) (inp : gostring) (caps : captures) (k : cont)
  : option captures :=
  match fuel with
  | 0 => k pos inp caps
  | S f =>
      match step pos inp caps
              (fun pos' inp' caps' =>
                 if (pos <? pos')%nat then iterate step f pos' inp' caps' k else None) with
      | Some c => Some c
      | None => k pos inp caps
      end
  end.

Fixpoint rmatch (r : re) (pos : nat) (inp : gostring) (caps : captures)
    (k : cont) {struct r} : option captures :=
  match r with
  | Eps => k pos inp caps
  | Char c =>
      match inp with
      | x :: inp' => if Ascii.eqb x c then k (S pos) inp' caps else None
      | [] => None
      end
  | AnyChar =>
      match inp with
      | x :: inp' => if Ascii.eqb x "010" then None else k (S pos) inp' caps
      | [] => None
      end
  | Class negated ranges =>
      match inp with
      | x :: inp' => if in_class negated ranges x then k (S pos) inp' caps else None
      | [] => None
      end
  | BeginText => if (pos =? 0)%nat then k pos inp caps else None
  | EndText => match inp with [] => k pos inp caps | _ => None end
  | Cat r1 r2 =>
      rmatch r1 pos inp caps (fun pos' inp' caps' => rmatch r2 pos' inp' caps' k)
  | Alt r1 r2 =>
      match rmatch r1 pos inp caps k with
      | Some c => Some c
      | None => rmatch r2 pos inp caps k
      end
  | Star r1 => iterate (rmatch r1) (length inp) pos inp caps k
  | Plus r1 =>
      rmatch r1 pos inp caps
        (fun pos' inp' caps' => iterate (rmatch r1) (length inp') pos' inp' caps' k)
  | Quest r1 =>
      match rmatch r1 pos inp caps k with
      | Some c => Some c
      | None => k pos inp caps
      end
  | Group n r1 =>
      rmatch r1 pos inp caps
        (fun pos' inp' caps' => k pos' inp' (<[n := Some (pos, pos')]> caps'))
  end.

(** The leftmost match: start positions in increasing order. *)
Fixpoint find_from (r : re) (n : nat) (pos : nat) (inp : gostring)
  : option captures :=
  match rmatch r pos inp (replicate (S n) None)
          (fun pos' _ caps => Some (<[0 := Some (pos, pos')]> caps)) with
  | Some c => Some c
  | None =>
      match inp with
      | [] => None
      | _ :: inp' => find_from r n (S pos) inp'
      end
  end.

Definition submatch (s : gostring) (c : option (nat * nat)) : gostring :=
  match c with
  | Some (a, b) => take (b - a) (drop a s)
  | None => []
  end.

#[export] Instance engine : RegexpEngine := {|
  Regexp := re;
  MustCompile := parse;
  NumSubexp := groups;
  FindStringSubmatch r s :=
    match find_from r (groups r) 0 s with
    | Some caps => Some (map (submatch s) caps)
    | None => None
    end;
|}.

End Backtrack.

(** Modelled from the spec: the match step of a route or router, which
    belongs to the routing code and not to [parametrizeable.go].  The path
    is evaluated against the compiled pattern; no match is an ordinary
    outcome ([None]); on a match the caller strips the full match at index
    0 and hands the remaining captures, with the parameter names, to the
    binder. *)
Definition bindPath `{RegexpEngine} (p : parametrizeable) (re : Regexp)
    (path : gostring) : option (result (gmap gostring gostring)) :=
  match FindStringSubmatch re path with
  | None => None
  | Some matches => Some (makeParameters (drop 1 matches) (parameters p))
  end.

(** * Specification vocabulary *)

(** ** Nesting depth *)

Definition brace_delta (c : ascii) : Z :=
  if Ascii.eqb c lbrace then 1 else if Ascii.eqb c rbrace then -1 else 0.

Fixpoint depth (s : gostring) : Z :=
  match s with
  | [] => 0
  | c :: s' => brace_delta c + depth s'
  end.

(** The depth after the first [n] bytes of [s]. *)
Definition depth_at (s : gostring) (n : nat) : Z := depth (take n s).

(** (a) the depth becomes negative at some position. *)
Definition negative_depth (s : gostring) : Prop :=
  ∃ n, n ≤ length s ∧ (depth_at s n < 0)%Z.

(** (b) the depth is not zero at the end of the input. *)
Definition open_at_end (s : gostring) : Prop := depth s ≠ 0%Z.

(** [o] and [c] are the offsets of a first-level pair of braces. *)
Definition first_level_pair (s : gostring) (o c : nat) : Prop :=
  s !! o = Some lbrace ∧ s !! c = Some rbrace ∧ o < c ∧
  depth_at s o = 0%Z ∧ depth_at s (S c) = 0%Z ∧
  ∀ j, o < j ≤ c → (0 < depth_at s j)%Z.

(** (c) some first-level pair is empty. *)
Definition empty_pair (s : gostring) : Prop :=
  ∃ o, first_level_pair s o (S o).

(** The same conditions seen from a state of the scanner: [rest] is the
    input that remains and [level] the depth so far. *)
Definition dips (level : Z) (rest : gostring) : Prop :=
  ∃ n, n ≤ length rest ∧ (level + depth (take n rest) < 0)%Z.

(** The opening brace of the pending placeholder is the byte just read. *)
Definition fresh (level : Z) (i idx : nat) : bool :=
  (level =? 1)%Z && (i =? idx + 1).

(** An empty first-level pair lies ahead, and the depth does not become
    negative before it. *)
Definition empty_first (level : Z) (fr : bool) (rest : gostring) : Prop :=
  (fr = true ∧ head rest = Some rbrace) ∨
  ∃ k, rest !! k = Some lbrace ∧ rest !! S k = Some rbrace ∧
       (level + depth (take k rest) = 0)%Z ∧
       ∀ n, n ≤ k → (0 <= level + depth (take n rest))%Z.

(** The pairs [(idxs[2k], idxs[2k+1])] of a flat list of offsets. *)
Definition pair_of (idxs : list nat) (k : nat) (o c : nat) : Prop :=
  idxs !! (2 * k) = Some o ∧ idxs !! (2 * k + 1) = Some c.

(** The offsets grow strictly from left to right. *)
Definition increasing (l : list nat) : Prop :=
  ∀ i j x y, i < j → l !! i = Some x → l !! j = Some y → x < y.

(** ** Templates as literal text and placeholders *)

Definition brace_free (t : gostring) : Prop := (lbrace ∉ t) ∧ (rbrace ∉ t).

(** Braces inside a placeholder are nested properly. *)
Definition balanced (b : gostring) : Prop :=
  depth b = 0%Z ∧ ∀ n, n ≤ length b → (0 <= depth (take n b))%Z.

(** The second half of [balanced], as a check: no prefix of [b] takes the
    depth, [level] at the start, below zero. *)
Fixpoint prefixes_nonneg (level : Z) (b : gostring) : bool :=
  (0 <=? level)%Z &&
  match b with
  | [] => true
  | c :: b' => prefixes_nonneg (level + brace_delta c) b'
  end.

(** A placeholder with the literal text before it. *)
Record segment : Type := {
  literal : gostring;
  body : gostring;
}.

Definition segment_wf (sg : segment) : Prop :=
  brace_free (literal sg) ∧ body sg ≠ [] ∧ balanced (body sg).

Fixpoint template_text (segs : list segment) (tail : gostring) : gostring :=
  match segs with
  | [] => tail
  | sg :: segs' =>
      literal sg ++ lbrace :: body sg ++ rbrace :: template_text segs' tail
  end.

(** The offsets of the braces of the placeholders of a template whose
    text starts at offset [i]. *)
Fixpoint positions (i : nat) (segs : list segment) : list nat :=
  match segs with
  | [] => []
  | sg :: segs' =>
      let o := i + length (literal sg) in
      let c := o + 1 + length (body sg) in
      o :: c :: positions (S c) segs'
  end.

(** The body of a placeholder: [name] or [name:subpattern]. *)
Inductive placeholder_body : gostring -> gostring -> option gostring -> Prop :=
| body_plain name :
    colon ∉ name -> placeholder_body name name None
| body_constrained name subpattern :
    colon ∉ name -> placeholder_body (name ++ colon :: subpattern) name (Some subpattern).

(** The capturing group emitted for a placeholder. *)
Definition group_text (subpattern : option gostring) : gostring :=
  str "(" ++ default default_pattern subpattern ++ str ")".

(** The pattern of the spec: the anchor, then for each placeholder the
    literal text before it and one group, then the trailing text, then the
    end anchor when asked for.  [segs] pairs each segment with the optional
    subpattern of its placeholder. *)
Fixpoint pattern_body (segs : list (segment * option gostring))
    (tail : gostring) : gostring :=
  match segs with
  | [] => tail
  | (sg, sub) :: segs' => literal sg ++ group_text sub ++ pattern_body segs' tail
  end.

Definition pattern_text (segs : list (segment * option gostring))
    (tail : gostring) (ends : bool) : gostring :=
  str "^" ++ pattern_body segs tail ++ (if ends then str "$" else []).

(** The walk over the placeholders in template order: the literal text,
    the name and the pattern of each, up to the first invalid one. *)
Fixpoint split_all (segs : list segment)
  : result (list (gostring * gostring * gostring)) :=
  match segs with
  | [] => Ok []
  | sg :: segs' =>
      '(name, pattern) ← splitParameter (body sg);
      rest ← split_all segs';
      Ok ((literal sg, name, pattern) :: rest)
  end.

Definition groups_text (nps : list (gostring * gostring * gostring)) : gostring :=
  concat (map (λ '(lit, _, pattern), lit ++ str "(" ++ pattern ++ str ")") nps).

Definition names_of (nps : list (gostring * gostring * gostring)) : list gostring :=
  map (λ '(_, name, _), name) nps.

(** A body that passes the checks of the compiler, with the name and the
    optional subpattern it stands for. *)
Definition valid_body (b name : gostring) (sub : option gostring) : Prop :=
  placeholder_body b name sub ∧ name ≠ [] ∧ sub ≠ Some [].

(** ** Bindings

    The value the binder gives [name]: that of the last position, among
    those that have both a name and a captured value, whose name it is. *)
Fixpoint last_binding (names match_ : list gostring) (name : gostring)
  : option gostring :=
  match names, match_ with
  | n :: names', v :: match' =>
      match last_binding names' match' name with
      | Some w => Some w
      | None => if decide (n = name) then Some v else None
      end
  | _, _ => None
  end.

(** ** The grammar of templates

    [template := (literal | placeholder)*],
    [placeholder := '{' name (':' subpattern)? '}'], a literal without
    braces.  In the grammar as the spec writes it a name has no [':'] and
    no ['}'] and a subpattern no ['}']. *)
Definition strict_body (b : gostring) : Prop :=
  ∃ name sub, placeholder_body b name sub ∧ name ≠ [] ∧ (rbrace ∉ name) ∧
    ∀ pattern, sub = Some pattern → pattern ≠ [] ∧ (rbrace ∉ pattern).

Definition in_grammar (uri : gostring) : Prop :=
  ∃ segs tail, uri = template_text segs tail ∧
    Forall (λ sg, brace_free (literal sg) ∧ strict_body (body sg)) segs ∧
    brace_free tail.

(** The grammar the compiler accepts: the braces inside a placeholder
    nest, and belong to its name or its subpattern. *)
Definition nested_body (b : gostring) : Prop :=
  balanced b ∧ ∃ name sub, valid_body b name sub.

Definition in_nested_grammar (uri : gostring) : Prop :=
  ∃ segs tail, uri = template_text segs tail ∧
    Forall (λ sg, brace_free (literal sg) ∧ nested_body (body sg)) segs ∧
    brace_free tail.

(** * The configuration ([config/config.go])

    The package keeps one map, [config], nil until it is loaded, behind a
    mutex; the model is the sequential behaviour of each function, with the
    map passed in and out.  [None] is the nil map.  A value of type
    [interface{}] is modelled by what the code can observe of it: whether
    it is nil, its [reflect.Kind], and whether it is exactly a [string] or
    a [bool].  [helper.Contains], of another package, is a parameter. *)
Module Config.

(** [reflect.Kind]. *)
Inductive Kind : Type :=
| Invalid | Bool | Int | Int8 | Int16 | Int32 | Int64
| Uint | Uint8 | Uint16 | Uint32 | Uint64 | Uintptr
| Float32 | Float64 | Complex64 | Complex128
| Array | Chan | Func | Interface | Map | Ptr | Slice
| String | Struct | UnsafePointer.

#[export] Instance Kind_eq_dec : EqDecision Kind.
Proof. solve_decision. Defined.

(** An [interface{}]. *)
Inductive value : Type :=
| Nil                          (* the nil interface *)
| Str (s : gostring)           (* a string *)
| Boolean (b : bool)           (* a bool *)
| Dyn (k : Kind) (data : Z).   (* a value of another dynamic type, of kind
                                  [k]: a float64, an int, a named string
                                  type, ...; [data] stands for the value,
                                  which the code does not look into *)

(** [reflect.TypeOf(v)], nil for the nil interface, then [Kind()]. *)
Definition kind_of (v : value) : option Kind :=
  match v with
  | Nil => None
  | Str _ => Some String
  | Boolean _ => Some Bool
  | Dyn k _ => Some k
  end.

(** The errors [validateEntry] returns. *)
Inductive error : Type :=
| InvalidType (key : gostring) (kind : Kind)
    (* "Invalid config entry. %s type must be %s" *)
| InvalidValue (key : gostring) (allowed : list gostring).
    (* "Invalid config entry. %s must have one of the following values: %s" *)

(** The panics. *)
Inductive failure : Type :=
| NilDereference                  (* [t.Kind()] on a nil [reflect.Type] *)
| NotAString                      (* [value.(string)] on another type *)
| NilMapAssignment                (* assignment to entry in nil map *)
| InvalidEntry (err : error)      (* [panic(err)] in [Set] *)
| DoesNotExist (key : gostring)   (* "Config entry %s doesn't exist" *)
| IsNotString (key : gostring)    (* "Config entry %s is not a string" *)
| IsNotBool (key : gostring).     (* "Config entry %s is not a bool" *)

Inductive outcome (A : Type) : Type :=
| Return (a : A)
| Panic (f : failure).
Arguments Return {A} a.
Arguments Panic {A} f.

Definition configValidation : gmap gostring Kind :=
  list_to_map [
    (str "appName", String); (str "environment", String); (str "host", String);
    (str "port", Float64); (str "httpsPort", Float64); (str "protocol", String);
    (str "debug", Bool); (str "timeout", Float64); (str "maxUploadSize", Float64);
    (str "defaultLanguage", String); (str "tlsCert", String); (str "tlsKey", String);
    (str "dbConnection", String); (str "dbHost", String); (str "dbPort", Float64);
    (str "dbName", String); (str "dbUsername", String); (str "dbPassword", String);
    (str "dbOptions", String); (str "dbMaxOpenConnections", Float64);
    (str "dbMaxIdleConnections", Float64); (str "dbAutoMigrate", Bool) ].

Definition authorizedValues : gmap gostring (list gostring) :=
  list_to_map [
    (str "protocol", [str "http"; str "https"]);
    (str "dbConnection",
     [str "none"; str "mysql"; str "postgres"; str "sqlite3"; str "mssql"]) ].

Section config.
Variable Contains : list gostring -> gostring -> bool.

Definition validateEntry (v : value) (key : gostring) : outcome (option error) :=
  match configValidation !! key with
  | Some kind =>
      match kind_of v with
      | None => Panic NilDereference
      | Some k =>
          if bool_decide (k ≠ kind) then Return (Some (InvalidType key kind))
          else
            match authorizedValues !! key with
            | Some allowed =>
                match v with
                | Str s =>
                    if negb (Contains allowed s)
                    then Return (Some (InvalidValue key allowed))
                    else Return None
                | _ => Panic NotAString
                end
            | None => Return None
            end
      end
  | None => Return None
  end.

(** [for key, value := range config]: the entries come in an order the
    language leaves open, here the order of the list [entries].  What is
    printed is left out. *)
Fixpoint validateConfig_loop (entries : list (gostring * value)) (valid : bool)
  : outcome bool :=
  match entries with
  | [] => Return valid
  | (key, v) :: entries' =>
      match validateEntry v key with
      | Panic f => Panic f
      | Return (Some _) => validateConfig_loop entries' false
      | Return None => validateConfig_loop entries' valid
      end
  end.

Definition validateConfig (entries : list (gostring * value)) : outcome bool :=
  validateConfig_loop entries true.

(** [entries] is one of the orders in which [range] may visit [config]. *)
Definition visits (config : option (gmap gostring value))
    (entries : list (gostring * value)) : Prop :=
  entries ≡ₚ map_to_list (default ∅ config).

Definition IsLoaded (config : option (gmap gostring value)) : bool :=
  bool_decide (config ≠ None).

Definition Clear (config : option (gmap gostring value))
  : option (gmap gostring value) := None.

Definition Get (config : option (gmap gostring value)) (key : gostring)
  : outcome value :=
  match default ∅ config !! key with
  | Some v => Return v
  | None => Panic (DoesNotExist key)
  end.

(** [Set]; it returns the map after the assignment. *)
Definition Set_ (config : option (gmap gostring value)) (key : gostring)
    (v : value) : outcome (option (gmap gostring value)) :=
  match validateEntry v key with
  | Panic f => Panic f
  | Return (Some err) => Panic (InvalidEntry err)
  | Return None =>
      match config with
      | None => Panic NilMapAssignment
      | Some m => Return (Some (<[key := v]> m))
      end
  end.

Definition GetString (config : option (gmap gostring value)) (key : gostring)
  : outcome gostring :=
  match default ∅ config !! key with
  | Some v =>
      match v with
      | Str s => Return s
      | _ => Panic (IsNotString key)
      end
  | None => Panic (DoesNotExist key)
  end.

Definition GetBool (config : option (gmap gostring value)) (key : gostring)
  : outcome bool :=
  match default ∅ config !! key with
  | Some v =>
      match v with
      | Boolean b => Return b
      | _ => Panic (IsNotBool key)
      end
  | None => Panic (DoesNotExist key)
  end.

End config.

End Config.

(** The tables are looked into by the lemmas, not by [simpl]. *)
Arguments Config.validateEntry : simpl never.
Arguments Config.configValidation : simpl never.
Arguments Config.authorizedValues : simpl never.

(** ** Further vocabulary *)

(** Two strings with their braces at the same places. *)
Definition same_braces (s t : gostring) : Prop :=
  Forall2 (λ a b, brace_delta a = brace_delta b) s t.

(** The kind of a failure of the scanner, without the string in the
    message. *)
Definition same_outcome (r r' : result (list nat)) : Prop :=
  match r, r' with
  | Ok l, Ok l' => l = l'
  | Err (UnbalancedBraces _), Err (UnbalancedBraces _) => True
  | Err (EmptyPlaceholder _), Err (EmptyPlaceholder _) => True
  | _, _ => False
  end.

Definition is_brace (c : ascii) : Prop := c = lbrace ∨ c = rbrace.

(** An entry of the configuration passes [validateEntry]. *)
Definition entry_valid (Contains : list gostring -> gostring -> bool)
    (e : gostring * Config.value) : bool :=
  match Config.validateEntry Contains e.2 e.1 with
  | Config.Return None => true
  | _ => false
  end.

(** [validateEntry] does not panic on an entry. *)
Definition entry_checked (Contains : list gostring -> gostring -> bool)
    (e : gostring * Config.value) : Prop :=
  ∃ r, Config.validateEntry Contains e.2 e.1 = Config.Return r.

(** Membership in a list of strings, as an instance of [helper.Contains]
    for the examples. *)
Definition contains_string (l : list gostring) (x : gostring) : bool :=
  bool_decide (x ∈ l).

(** * Proofs *)

(** ** Bytes and depth *)

Lemma ascii_cases (c : ascii) :
  c = lbrace ∨ c = rbrace ∨ (c ≠ lbrace ∧ c ≠ rbrace).
Proof.
  destruct (decide (c = lbrace)); [by left|].
  destruct (decide (c = rbrace)); [by right; left|by right; right].
Qed.

Lemma eqb_other (c d : ascii) : c ≠ d → Ascii.eqb c d = false.
Proof. intros Hne. by apply Ascii.eqb_neq. Qed.

Lemma brace_delta_lbrace : brace_delta lbrace = 1%Z.
Proof. reflexivity. Qed.

Lemma brace_delta_rbrace : brace_delta rbrace = (-1)%Z.
Proof. reflexivity. Qed.

Lemma brace_delta_other c : c ≠ lbrace → c ≠ rbrace → brace_delta c = 0%Z.
Proof. intros H1 H2. unfold brace_delta. by rewrite !eqb_other. Qed.

Lemma depth_app s t : depth (s ++ t) = (depth s + depth t)%Z.
Proof. induction s as [|c s IH]; simpl; lia. Qed.

Lemma brace_free_cons c t :
  brace_free (c :: t) ↔ c ≠ lbrace ∧ c ≠ rbrace ∧ brace_free t.
Proof. unfold brace_free. rewrite !not_elem_of_cons. naive_solver. Qed.

Lemma brace_free_nil : brace_free [].
Proof. split; apply not_elem_of_nil. Qed.

Lemma brace_free_app s t : brace_free (s ++ t) ↔ brace_free s ∧ brace_free t.
Proof. unfold brace_free. rewrite !not_elem_of_app. naive_solver. Qed.

Lemma depth_brace_free t : brace_free t → depth t = 0%Z.
Proof.
  induction t as [|c t IH]; [done|].
  rewrite brace_free_cons. intros (H1 & H2 & Ht). simpl.
  rewrite brace_delta_other by done. rewrite IH by done. lia.
Qed.

Lemma brace_free_take n t : brace_free t → brace_free (take n t).
Proof.
  intros Ht. rewrite <- (take_drop n t) in Ht. by apply brace_free_app in Ht as [? _].
Qed.

(** ** The scanner, step by step *)

(** Equations between lists of offsets that differ by arithmetic. *)
Ltac solve_positions :=
  simpl; rewrite ?Nat.add_0_r; repeat (f_equal; try lia).

Section scanner.
Context (s : gostring).

Lemma loop_lbrace rest i level idx acc :
  braceIndices_loop s (lbrace :: rest) i level idx acc =
  braceIndices_loop s rest (S i) (level + 1)
    (if (level + 1 =? 1)%Z then i else idx) acc.
Proof. reflexivity. Qed.

Lemma loop_rbrace rest i level idx acc :
  braceIndices_loop s (rbrace :: rest) i level idx acc =
  if (level - 1 =? 0)%Z then
    if i =? idx + 1 then Err (EmptyPlaceholder s)
    else braceIndices_loop s rest (S i) (level - 1) idx (acc ++ [idx; i])
  else if (level - 1 <? 0)%Z then Err (UnbalancedBraces s)
  else braceIndices_loop s rest (S i) (level - 1) idx acc.
Proof. reflexivity. Qed.

Lemma loop_other c rest i level idx acc :
  c ≠ lbrace → c ≠ rbrace →
  braceIndices_loop s (c :: rest) i level idx acc =
  braceIndices_loop s rest (S i) level idx acc.
Proof. intros H1 H2. simpl. by rewrite !eqb_other. Qed.

(** The accumulator only collects. *)
Lemma loop_acc rest : ∀ i level idx acc,
  braceIndices_loop s rest i level idx acc =
  match braceIndices_loop s rest i level idx [] with
  | Ok l => Ok (acc ++ l)
  | Err e => Err e
  end.
Proof.
  induction rest as [|c rest IH]; intros i level idx acc.
  - simpl. destruct (negb _); [done|]. by rewrite app_nil_r.
  - destruct (ascii_cases c) as [-> | [-> | [H1 H2]]].
    + rewrite !loop_lbrace. apply IH.
    + rewrite !loop_rbrace.
      destruct (level - 1 =? 0)%Z.
      * destruct (i =? idx + 1); [done|].
        rewrite (IH _ _ _ (acc ++ _)), (IH _ _ _ ([] ++ _)).
        destruct (braceIndices_loop s rest _ _ _ []); [|done].
        by rewrite <- app_assoc.
      * destruct (level - 1 <? 0)%Z; [done|]. apply IH.
    + rewrite !loop_other by done. apply IH.
Qed.

Lemma loop_literal lit rest : ∀ i level idx acc,
  brace_free lit →
  braceIndices_loop s (lit ++ rest) i level idx acc =
  braceIndices_loop s rest (i + length lit) level idx acc.
Proof.
  induction lit as [|c lit IH]; intros i level idx acc.
  - intros _. solve_positions.
  - rewrite brace_free_cons. intros (H1 & H2 & Hlit). simpl app.
    rewrite loop_other, IH by done. f_equal. simpl. lia.
Qed.

(** Inside a placeholder the level stays above zero. *)
Lemma loop_body b rest : ∀ i level idx acc,
  (∀ n, n ≤ length b → (1 <= level + depth (take n b))%Z) →
  braceIndices_loop s (b ++ rest) i level idx acc =
  braceIndices_loop s rest (i + length b) (level + depth b) idx acc.
Proof.
  induction b as [|c b IH]; intros i level idx acc Hpre.
  - simpl. by rewrite Nat.add_0_r, Z.add_0_r.
  - assert (Hlvl : (1 <= level)%Z).
    { specialize (Hpre 0). simpl in Hpre. lia. }
    assert (Hstep : ∀ n, n ≤ length b →
              (1 <= level + brace_delta c + depth (take n b))%Z).
    { intros n Hn. specialize (Hpre (S n)). simpl in Hpre. lia. }
    assert (Hone := Hstep 0 ltac:(lia)). simpl in Hone.
    simpl app. simpl depth. simpl length.
    replace (i + S (length b)) with (S i + length b) by lia.
    rewrite Z.add_assoc.
    destruct (ascii_cases c) as [-> | [-> | [H1 H2]]].
    + rewrite loop_lbrace. rewrite brace_delta_lbrace in *.
      destruct (Z.eqb_spec (level + 1) 1); [lia|]. by apply IH.
    + rewrite loop_rbrace. rewrite brace_delta_rbrace in *.
      destruct (Z.eqb_spec (level - 1) 0); [lia|].
      destruct (Z.ltb_spec (level - 1) 0); [lia|].
      replace (level + -1)%Z with (level - 1)%Z in * by lia. by apply IH.
    + rewrite loop_other by done. rewrite brace_delta_other in * by done.
      rewrite Z.add_0_r in *. by apply IH.
Qed.

(** On a well-formed template the scanner returns the offsets of the
    braces of its placeholders. *)
Lemma loop_template segs tail : ∀ i idx acc,
  Forall segment_wf segs → brace_free tail →
  braceIndices_loop s (template_text segs tail) i 0 idx acc =
  Ok (acc ++ positions i segs).
Proof.
  induction segs as [|sg segs IH]; intros i idx acc Hwf Htail.
  - simpl. rewrite <- (app_nil_r tail), loop_literal by done.
    simpl. by rewrite app_nil_r.
  - apply Forall_cons in Hwf as [(Hlit & Hne & Hzero & Hpre) Hwf].
    simpl template_text. rewrite loop_literal by done.
    rewrite loop_lbrace. simpl (0 + 1 =? 1)%Z. cbv iota.
    change (lbrace :: ?x) with ([lbrace] ++ x).
    change (body sg ++ rbrace :: ?x) with (body sg ++ (rbrace :: x)).
    rewrite loop_body.
    2:{ intros n Hn. specialize (Hpre n Hn). lia. }
    rewrite Hzero, loop_rbrace. simpl (0 + 1 + 0 - 1 =? 0)%Z. cbv iota.
    destruct (Nat.eqb_spec (S (i + length (literal sg)) + length (body sg))
                (i + length (literal sg) + 1)) as [Heq|_].
    { destruct (body sg); [done|simpl in Heq; lia]. }
    simpl (0 + 1 + 0 - 1)%Z. rewrite IH by done.
    rewrite <- app_assoc. simpl. do 4 f_equal; [lia|f_equal; lia].
Qed.

(** Conversely, what the scanner accepts is a well-formed template.  At
    level 0 the rest of the input is such a template; at a higher level
    it starts with the rest [b] of the body of the placeholder opened at
    [idx]. *)
Lemma loop_ok_inv rest : ∀ i level idx l,
  (0 <= level)%Z →
  braceIndices_loop s rest i level idx [] = Ok l →
  (level = 0%Z →
     ∃ segs tail, rest = template_text segs tail ∧
       Forall segment_wf segs ∧ brace_free tail ∧ l = positions i segs) ∧
  ((1 <= level)%Z →
     ∃ b segs tail, rest = b ++ rbrace :: template_text segs tail ∧
       (∀ n, n ≤ length b → (1 <= level + depth (take n b))%Z) ∧
       (level + depth b = 1)%Z ∧
       Forall segment_wf segs ∧ brace_free tail ∧
       i + length b ≠ idx + 1 ∧
       l = idx :: i + length b :: positions (S (i + length b)) segs).
Proof.
  induction rest as [|c rest IH]; intros i level idx l Hlevel Hrun.
  - simpl in Hrun. destruct (Z.eqb_spec level 0) as [->|Hne]; [|done].
    injection Hrun as <-. split; [|lia]. intros _.
    exists [], []. split_and!; [done|constructor|apply brace_free_nil|done].
  - destruct (ascii_cases c) as [-> | [-> | [H1 H2]]].
    + rewrite loop_lbrace in Hrun. apply IH in Hrun as [_ Hin]; [|lia].
      destruct (Hin ltac:(lia))
        as (b & segs & tail & -> & Hpre & Hsum & Hwf & Htail & Hne & ->).
      split.
      * intros ->. simpl in Hne.
        exists ({| literal := []; body := b |} :: segs), tail.
        split_and!; [done| |done|].
        -- constructor; [|done]. split_and!; simpl.
           ++ apply brace_free_nil.
           ++ intros ->. simpl in Hne. lia.
           ++ split; [lia|]. intros n Hn. specialize (Hpre n Hn). lia.
        -- solve_positions.
      * intros Hlvl. destruct (Z.eqb_spec (level + 1) 1) as [|_]; [lia|].
        exists (lbrace :: b), segs, tail.
        split_and!; [done| | |done|done|simpl; lia|].
        -- intros [|n] Hn; simpl in *; [lia|].
           specialize (Hpre n ltac:(lia)). rewrite brace_delta_lbrace. lia.
        -- simpl. rewrite brace_delta_lbrace. lia.
        -- solve_positions.
    + rewrite loop_rbrace in Hrun.
      destruct (Z.eqb_spec (level - 1) 0) as [Hz|Hnz].
      * destruct (Nat.eqb_spec i (idx + 1)) as [|Hne]; [done|].
        rewrite loop_acc in Hrun.
        destruct (braceIndices_loop s rest (S i) (level - 1) idx []) as [l'|]
          eqn:Hrun'; [|done].
        injection Hrun as <-. apply IH in Hrun' as [Hin _]; [|lia].
        destruct (Hin ltac:(lia)) as (segs & tail & -> & Hwf & Htail & ->).
        split; [lia|]. intros _. exists [], segs, tail.
        split_and!; [done| |simpl; lia|done|done|simpl; lia|].
        -- intros n Hn. simpl in Hn. replace n with 0 by lia. simpl. lia.
        -- solve_positions.
      * destruct (Z.ltb_spec (level - 1) 0) as [|Hge]; [done|].
        apply IH in Hrun as [_ Hin]; [|lia].
        destruct (Hin ltac:(lia))
          as (b & segs & tail & -> & Hpre & Hsum & Hwf & Htail & Hne & ->).
        split; [lia|]. intros _. exists (rbrace :: b), segs, tail.
        split_and!; [done| | |done|done|simpl; lia|].
        -- intros [|n] Hn; simpl in *; [lia|].
           specialize (Hpre n ltac:(lia)). rewrite brace_delta_rbrace. lia.
        -- simpl. rewrite brace_delta_rbrace. lia.
        -- solve_positions.
    + rewrite loop_other in Hrun by done. apply IH in Hrun as [Hzero Hin]; [|lia].
      split.
      * intros Hlvl.
        destruct (Hzero Hlvl) as (segs & tail & -> & Hwf & Htail & ->).
        destruct segs as [|sg segs].
        -- exists [], (c :: tail). split_and!; [done|done| |done].
           by apply brace_free_cons.
        -- apply Forall_cons in Hwf as [(Hlit & Hbody) Hwf].
           exists ({| literal := c :: literal sg; body := body sg |} :: segs), tail.
           split_and!; [done| |done|].
           ++ constructor; [|done]. split; [|done]. by apply brace_free_cons.
           ++ solve_positions.
      * intros Hlvl.
        destruct (Hin Hlvl) as (b & segs & tail & -> & Hpre & Hsum & Hwf & Htail & Hne & ->).
        exists (c :: b), segs, tail.
        split_and!; [done| | |done|done|simpl; lia|].
        -- intros [|n] Hn; simpl in *; [lia|].
           specialize (Hpre n ltac:(lia)). rewrite brace_delta_other by done. lia.
        -- simpl. rewrite brace_delta_other by done. lia.
        -- solve_positions.
Qed.

(** *** Failures *)

Lemma dips_cons level c rest :
  dips level (c :: rest) ↔ (level < 0)%Z ∨ dips (level + brace_delta c) rest.
Proof.
  unfold dips. split.
  - intros ([|n] & Hn & Hlt); simpl in *; [left; lia|].
    right. exists n. split; [lia|lia].
  - intros [Hlt | (n & Hn & Hlt)].
    + exists 0. simpl. split; lia.
    + exists (S n). simpl. split; lia.
Qed.

Lemma empty_first_cons level fr c rest :
  empty_first level fr (c :: rest) ↔
  (fr = true ∧ c = rbrace) ∨
  ((0 <= level)%Z ∧
   empty_first (level + brace_delta c)
     (bool_decide (c = lbrace) && (level =? 0)%Z) rest).
Proof.
  unfold empty_first. split.
  - intros [[Hfr Hhd] | (k & Ho & Hc & Hz & Hpre)].
    + left. simpl in Hhd. split; congruence.
    + right. split; [specialize (Hpre 0); simpl in Hpre; lia|].
      destruct k as [|k]; simpl in *.
      * left. injection Ho as ->. rewrite bool_decide_eq_true_2 by done.
        rewrite head_lookup. split; [|done]. simpl.
        apply Z.eqb_eq. lia.
      * right. exists k. split_and!; [done|done|lia|].
        intros n Hn. specialize (Hpre (S n)). simpl in Hpre. lia.
  - intros [[Hfr ->] | [Hlvl [[Hfr Hhd] | (k & Ho & Hc & Hz & Hpre)]]].
    + by left.
    + right. apply andb_true_iff in Hfr as [Hc Hz].
      apply bool_decide_eq_true in Hc as ->. apply Z.eqb_eq in Hz as ->.
      exists 0. rewrite head_lookup in Hhd.
      split_and!; [done|done|done|].
      intros n Hn. replace n with 0 by lia. done.
    + right. exists (S k). simpl. split_and!; [done|done|lia|].
      intros [|n] Hn; simpl; [lia|]. specialize (Hpre n). lia.
Qed.

(** What the scanner accepts never dips below zero and closes every
    brace. *)
Lemma loop_ok_depth rest : ∀ i level idx acc l,
  (0 <= level)%Z →
  braceIndices_loop s rest i level idx acc = Ok l →
  ¬ dips level rest ∧ (level + depth rest = 0)%Z.
Proof.
  induction rest as [|c rest IH]; intros i level idx acc l Hlevel Hrun.
  - simpl in Hrun. destruct (Z.eqb_spec level 0) as [->|]; [|done].
    split; [|done]. intros (n & _ & Hlt). rewrite take_nil in Hlt. simpl in Hlt. lia.
  - rewrite dips_cons. simpl depth.
    destruct (ascii_cases c) as [-> | [-> | [H1 H2]]].
    + rewrite loop_lbrace in Hrun. rewrite brace_delta_lbrace.
      apply IH in Hrun as [Hd Hs]; [|lia]. split; [|lia]. intros [?|?]; [lia|done].
    + rewrite loop_rbrace in Hrun. rewrite brace_delta_rbrace.
      destruct (Z.eqb_spec (level - 1) 0).
      * destruct (i =? idx + 1); [done|].
        apply IH in Hrun as [Hd Hs]; [|lia]. split; [|lia]. intros [?|?]; [lia|done].
      * destruct (Z.ltb_spec (level - 1) 0); [done|].
        apply IH in Hrun as [Hd Hs]; [|lia]. split; [|lia]. intros [?|?]; [lia|done].
    + rewrite loop_other in Hrun by done. rewrite brace_delta_other by done.
      rewrite Z.add_0_r.
      apply IH in Hrun as [Hd Hs]; [|lia]. split; [|lia]. intros [?|?]; [lia|done].
Qed.

(** The state that follows a byte is [fresh] exactly after an opening
    brace at level 0. *)
Lemma fresh_lbrace level i idx :
  (0 <= level)%Z →
  fresh (level + 1) (S i) (if (level + 1 =? 1)%Z then i else idx) =
  (level =? 0)%Z.
Proof.
  intros Hlevel. unfold fresh.
  destruct (Z.eqb_spec level 0) as [->|Hne].
  - change (0 + 1 =? 1)%Z with true. cbv iota. rewrite andb_true_l.
    apply Nat.eqb_eq. lia.
  - destruct (Z.eqb_spec (level + 1) 1); [lia|done].
Qed.

Lemma fresh_later level level' i idx :
  ((1 <= level)%Z → idx < i) → (level' <= level)%Z →
  fresh level' (S i) idx = false.
Proof.
  intros Hidx Hle. unfold fresh.
  destruct (Z.eqb_spec level' 1); [|done]. rewrite andb_true_l.
  apply Nat.eqb_neq. lia.
Qed.

(** Each failure has its cause. *)
Lemma loop_err_cases rest : ∀ i level idx acc e,
  (0 <= level)%Z → ((1 <= level)%Z → idx < i) →
  braceIndices_loop s rest i level idx acc = Err e →
  (e = UnbalancedBraces s ∧ (dips level rest ∨ (level + depth rest)%Z ≠ 0%Z)) ∨
  (e = EmptyPlaceholder s ∧ empty_first level (fresh level i idx) rest).
Proof.
  induction rest as [|c rest IH]; intros i level idx acc e Hlevel Hidx Hrun.
  - simpl in Hrun. destruct (Z.eqb_spec level 0) as [|Hne]; [done|].
    injection Hrun as <-. left. split; [done|]. right. simpl. lia.
  - rewrite dips_cons, empty_first_cons. simpl depth.
    destruct (ascii_cases c) as [-> | [-> | [H1 H2]]].
    + rewrite loop_lbrace in Hrun. rewrite brace_delta_lbrace.
      apply IH in Hrun as [[-> Hc] | [-> Hc]]; [| |lia|].
      * left. split; [done|]. destruct Hc; [left; by right|right; lia].
      * right. split; [done|]. right. split; [done|].
        rewrite fresh_lbrace in Hc by done. by rewrite bool_decide_eq_true_2.
      * intros _. destruct (Z.eqb_spec (level + 1) 1); lia.
    + rewrite loop_rbrace in Hrun. rewrite brace_delta_rbrace.
      destruct (Z.eqb_spec (level - 1) 0) as [Hz|Hnz].
      * destruct (Nat.eqb_spec i (idx + 1)) as [Hi|Hi].
        -- injection Hrun as <-. right. split; [done|]. left. split; [|done].
           unfold fresh. apply andb_true_iff. split; [apply Z.eqb_eq; lia|].
           by apply Nat.eqb_eq.
        -- apply IH in Hrun as [[-> Hc] | [-> Hc]]; [| |lia|lia].
           ++ left. split; [done|]. destruct Hc; [left; by right|right; lia].
           ++ right. split; [done|]. right. split; [done|].
              rewrite bool_decide_eq_false_2 by done.
              by rewrite (fresh_later level) in Hc by (done || lia).
      * destruct (Z.ltb_spec (level - 1) 0) as [Hlt|Hge].
        -- injection Hrun as <-. left. split; [done|]. left. right.
           exists 0. simpl. split; lia.
        -- apply IH in Hrun as [[-> Hc] | [-> Hc]]; [| |lia|lia].
           ++ left. split; [done|]. destruct Hc; [left; by right|right; lia].
           ++ right. split; [done|]. right. split; [done|].
              rewrite bool_decide_eq_false_2 by done.
              by rewrite (fresh_later level) in Hc by (done || lia).
    + rewrite loop_other in Hrun by done. rewrite brace_delta_other by done.
      rewrite Z.add_0_r.
      apply IH in Hrun as [[-> Hc] | [-> Hc]]; [| |lia|lia].
      * left. split; [done|]. destruct Hc; [left; by right|right; lia].
      * right. split; [done|]. right. split; [done|].
        rewrite bool_decide_eq_false_2 by done.
        by rewrite (fresh_later level) in Hc by (done || lia).
Qed.

(** An empty pair reached before the depth dips is reported as such. *)
Lemma loop_empty_first rest : ∀ i level idx acc,
  (0 <= level)%Z → ((1 <= level)%Z → idx < i) →
  empty_first level (fresh level i idx) rest →
  braceIndices_loop s rest i level idx acc = Err (EmptyPlaceholder s).
Proof.
  induction rest as [|c rest IH]; intros i level idx acc Hlevel Hidx Hemp.
  - destruct Hemp as [[_ Hhd] | (k & Ho & _)]; [done|].
    by rewrite lookup_nil in Ho.
  - apply empty_first_cons in Hemp as [[Hfr ->] | [_ Hemp]].
    + rewrite loop_rbrace. unfold fresh in Hfr.
      apply andb_true_iff in Hfr as [Hl Hi]. apply Z.eqb_eq in Hl as ->.
      simpl. by rewrite Hi.
    + destruct (ascii_cases c) as [-> | [-> | [H1 H2]]].
      * rewrite loop_lbrace. rewrite brace_delta_lbrace in Hemp.
        rewrite bool_decide_eq_true_2 in Hemp by done. simpl in Hemp.
        apply IH; [lia| |by rewrite fresh_lbrace].
        intros _. destruct (Z.eqb_spec (level + 1) 1); lia.
      * rewrite loop_rbrace. rewrite brace_delta_rbrace in Hemp.
        rewrite bool_decide_eq_false_2 in Hemp by done. simpl in Hemp.
        assert ((0 <= level - 1)%Z).
        { destruct Hemp as [[? _]|(k & _ & _ & _ & Hpre)]; [done|].
          specialize (Hpre 0). simpl in Hpre. lia. }
        destruct (Z.eqb_spec (level - 1) 0).
        -- destruct (i =? idx + 1); [done|].
           apply IH; [lia|lia|]. by rewrite (fresh_later level) by (done || lia).
        -- destruct (Z.ltb_spec (level - 1) 0); [lia|].
           apply IH; [lia|lia|]. by rewrite (fresh_later level) by (done || lia).
      * rewrite loop_other by done. rewrite brace_delta_other in Hemp by done.
        rewrite bool_decide_eq_false_2 in Hemp by done. simpl in Hemp.
        rewrite Z.add_0_r in Hemp.
        apply IH; [lia|lia|]. by rewrite (fresh_later level) by (done || lia).
Qed.

End scanner.

(** ** The offsets of a well-formed template *)

Lemma pair_of_0 o c l o' c' : pair_of (o :: c :: l) 0 o' c' ↔ o = o' ∧ c = c'.
Proof. unfold pair_of. simpl. naive_solver. Qed.

Lemma pair_of_S o c l k o' c' :
  pair_of (o :: c :: l) (S k) o' c' ↔ pair_of l k o' c'.
Proof.
  unfold pair_of. replace (2 * S k) with (S (S (2 * k))) by lia. done.
Qed.

Lemma length_positions segs : ∀ i, length (positions i segs) = 2 * length segs.
Proof. induction segs as [|sg segs IH]; intros i; simpl; [done|]. rewrite IH. lia. Qed.

Lemma positions_lower segs : ∀ i x, x ∈ positions i segs → i ≤ x.
Proof.
  induction segs as [|sg segs IH]; intros i x; simpl.
  - by intros ?%elem_of_nil.
  - rewrite !elem_of_cons. intros [-> | [-> | Hin]]; [lia|lia|].
    apply IH in Hin. lia.
Qed.

Lemma increasing_cons x l :
  (∀ y, y ∈ l → x < y) → increasing l → increasing (x :: l).
Proof.
  intros Hlt Hinc [|i] [|j] a b Hij Ha Hb; simpl in *; try lia.
  - injection Ha as <-. apply Hlt. by eapply list_elem_of_lookup_2.
  - eapply (Hinc i j); [lia|done|done].
Qed.

Lemma positions_increasing segs : ∀ i, increasing (positions i segs).
Proof.
  induction segs as [|sg segs IH]; intros i; simpl.
  - intros ? ? ? ? _ Hx. by rewrite lookup_nil in Hx.
  - apply increasing_cons; [|apply increasing_cons; [|apply IH]].
    + intros y. rewrite elem_of_cons. intros [-> | Hin%positions_lower]; lia.
    + intros y Hin%positions_lower. lia.
Qed.

Lemma depth_at_S s n c :
  s !! n = Some c → depth_at s (S n) = (depth_at s n + brace_delta c)%Z.
Proof.
  intros Hc. unfold depth_at. rewrite (take_S_r _ _ c), depth_app by done.
  simpl. lia.
Qed.

(** An empty first-level pair is an opening brace at depth 0 followed by a
    closing brace. *)
Lemma empty_pair_iff s o :
  first_level_pair s o (S o) ↔
  s !! o = Some lbrace ∧ s !! S o = Some rbrace ∧ depth_at s o = 0%Z.
Proof.
  split; [intros (? & ? & _ & ? & _); done|].
  intros (Ho & Hc & Hz). split_and!; [done|done|lia|done| |].
  - rewrite (depth_at_S _ _ _ Hc), (depth_at_S _ _ _ Ho), Hz. done.
  - intros j Hj. replace j with (S o) by lia.
    rewrite (depth_at_S _ _ _ Ho), Hz. done.
Qed.

(** The matching brace of an opening brace is unique, and no first-level
    pair starts inside another. *)
Lemma first_level_pair_close s o c c' :
  first_level_pair s o c → first_level_pair s o c' → c = c'.
Proof.
  intros (_ & _ & Hoc & _ & Hz & Hpos) (_ & _ & Hoc' & _ & Hz' & Hpos').
  destruct (Nat.lt_trichotomy c c') as [Hlt | [-> | Hlt]]; [|done|].
  - specialize (Hpos' (S c)). lia.
  - specialize (Hpos (S c')). lia.
Qed.

Lemma first_level_pair_disjoint s o c o' c' :
  first_level_pair s o c → first_level_pair s o' c' → o < o' → c < o'.
Proof.
  intros (_ & _ & _ & _ & _ & Hpos) (_ & _ & _ & Hz & _) Hlt.
  destruct (Nat.lt_ge_cases c o') as [|Hge]; [done|].
  specialize (Hpos o'). lia.
Qed.

Section template_offsets.
Context (tail : gostring) (Htail : brace_free tail).

(** The first placeholder of a template that follows [pre]. *)
Lemma first_segment pre sg rest :
  depth pre = 0%Z → segment_wf sg →
  let o := length pre + length (literal sg) in
  let c := o + 1 + length (body sg) in
  first_level_pair (pre ++ literal sg ++ lbrace :: body sg ++ rbrace :: rest) o c
  ∧ o + 1 < c.
Proof.
  intros Hpre (Hlit & Hne & Hzero & Hbody) o c.
  assert (Hc : c = o + 1 + length (body sg)) by done.
  assert (Ho' : o = length pre + length (literal sg)) by done.
  clearbody c o.
  assert (Hlen : 0 < length (body sg)) by (destruct (body sg); [done|simpl; lia]).
  assert (Hs : pre ++ literal sg ++ lbrace :: body sg ++ rbrace :: rest =
               (pre ++ literal sg) ++ [lbrace] ++ body sg ++ [rbrace] ++ rest).
  { by rewrite <- !app_assoc. }
  rewrite Hs. clear Hs.
  assert (Ho : o = length (pre ++ literal sg)) by (rewrite length_app; lia).
  split; [|lia]. split_and!.
  - rewrite lookup_app_r by lia. by replace (o - _) with 0 by lia.
  - rewrite lookup_app_r by lia. replace (c - _) with (S (length (body sg))) by lia.
    simpl. rewrite lookup_app_r by lia. by replace (_ - _) with 0 by lia.
  - lia.
  - unfold depth_at. rewrite take_app_length' by done.
    rewrite depth_app, Hpre, depth_brace_free; done.
  - unfold depth_at.
    rewrite !app_assoc.
    rewrite take_app_length'.
    2:{ rewrite !length_app. simpl. lia. }
    rewrite !depth_app, Hpre, Hzero, depth_brace_free by done. done.
  - intros j Hj. unfold depth_at.
    rewrite (app_assoc _ [lbrace]).
    replace j with (length ((pre ++ literal sg) ++ [lbrace]) + (j - o - 1)).
    2:{ rewrite !length_app. simpl. lia. }
    rewrite take_app_add, take_app_le by lia.
    rewrite !depth_app, Hpre, depth_brace_free by done.
    specialize (Hbody (j - o - 1) ltac:(lia)).
    change (depth [lbrace]) with 1%Z. lia.
Qed.

Lemma template_after pre sg segs :
  pre ++ template_text (sg :: segs) tail =
  (pre ++ literal sg ++ lbrace :: body sg ++ [rbrace]) ++ template_text segs tail.
Proof. simpl. rewrite <- !app_assoc. simpl. by rewrite <- !app_assoc. Qed.

Lemma depth_after pre sg :
  depth pre = 0%Z → segment_wf sg →
  depth (pre ++ literal sg ++ lbrace :: body sg ++ [rbrace]) = 0%Z.
Proof.
  intros Hpre (Hlit & _ & Hzero & _).
  rewrite !depth_app. simpl. rewrite depth_app, Hpre, Hzero, depth_brace_free by done.
  done.
Qed.

Lemma length_after pre sg :
  length (pre ++ literal sg ++ lbrace :: body sg ++ [rbrace]) =
  S (length pre + length (literal sg) + 1 + length (body sg)).
Proof. rewrite !length_app. simpl. rewrite length_app. simpl. lia. Qed.

(** Every recorded pair is a first-level pair, and it is not empty. *)
Lemma positions_first_level segs : ∀ pre k o c,
  depth pre = 0%Z → Forall segment_wf segs →
  pair_of (positions (length pre) segs) k o c →
  first_level_pair (pre ++ template_text segs tail) o c ∧ o + 1 < c.
Proof.
  induction segs as [|sg segs IH]; intros pre k o c Hpre Hwf Hpair.
  - destruct Hpair as [Hpair _]. simpl positions in Hpair.
    by rewrite lookup_nil in Hpair.
  - apply Forall_cons in Hwf as [Hsg Hwf]. simpl positions in Hpair.
    destruct k as [|k].
    + apply pair_of_0 in Hpair as [<- <-]. by apply first_segment.
    + apply pair_of_S in Hpair. rewrite template_after.
      apply (IH _ k); [by apply depth_after|done|by rewrite length_after].
Qed.

(** Every first-level pair is recorded. *)
Lemma first_level_recorded segs : ∀ pre o c,
  depth pre = 0%Z → Forall segment_wf segs → length pre ≤ o →
  first_level_pair (pre ++ template_text segs tail) o c →
  ∃ k, pair_of (positions (length pre) segs) k o c.
Proof.
  induction segs as [|sg segs IH]; intros pre o c Hpre Hwf Hle Hpair.
  - destruct Hpair as (Ho & _). simpl in Ho.
    rewrite lookup_app_r in Ho by done.
    apply list_elem_of_lookup_2 in Ho. by destruct Htail.
  - apply Forall_cons in Hwf as [Hsg Hwf].
    destruct (first_segment pre sg (template_text segs tail) Hpre Hsg) as [Hfirst Hne].
    simpl in Hfirst. simpl template_text in Hpair.
    set (o1 := length pre + length (literal sg)) in *.
    destruct (Nat.lt_trichotomy o o1) as [Hlt | [-> | Hgt]].
    + destruct Hpair as (Ho & _).
      rewrite lookup_app_r, lookup_app_l in Ho by lia.
      apply list_elem_of_lookup_2 in Ho. destruct Hsg as [[? _] _]. done.
    + exists 0. simpl positions. apply pair_of_0. split; [done|].
      by eapply first_level_pair_close.
    + assert (Hc := first_level_pair_disjoint _ _ _ _ _ Hfirst Hpair Hgt).
      change (literal sg ++ lbrace :: body sg ++ rbrace :: template_text segs tail)
        with (template_text (sg :: segs) tail) in Hpair.
      rewrite template_after in Hpair.
      apply IH in Hpair as [k Hk];
        [|by apply depth_after|done|rewrite length_after; lia].
      exists (S k). simpl positions. apply pair_of_S.
      by rewrite length_after in Hk.
Qed.

End template_offsets.

(** A template reads in one way only as literal text and placeholders. *)
Lemma positions_template_inj segs : ∀ segs' pre tail tail',
  pre ++ template_text segs tail = pre ++ template_text segs' tail' →
  positions (length pre) segs = positions (length pre) segs' →
  segs = segs' ∧ tail = tail'.
Proof.
  induction segs as [|sg segs IH]; intros [|sg' segs'] pre tail tail' Htext Hpos;
    simpl in Hpos; try discriminate Hpos.
  - by apply app_inv_head in Htext.
  - injection Hpos as Ho Hc Hpos.
    assert (Hlit : length (literal sg) = length (literal sg')) by lia.
    assert (Hbody : length (body sg) = length (body sg')) by lia.
    pose proof Htext as Hrest. apply app_inv_head in Hrest. simpl in Hrest.
    apply app_inj_1 in Hrest as [Hl Hrest]; [|done].
    injection Hrest as Hrest.
    apply app_inj_1 in Hrest as [Hb Hrest]; [|done].
    injection Hrest as Hrest.
    rewrite !template_after in Htext.
    assert (Hsg : sg = sg') by (destruct sg, sg'; simpl in *; congruence).
    subst sg'.
    destruct (IH segs' _ tail tail' Htext) as [-> ->]; [|done].
    by rewrite length_after.
Qed.

(** ** The brace scanner *)

Lemma braceIndices_template segs tail :
  Forall segment_wf segs → brace_free tail →
  braceIndices (template_text segs tail) = Ok (positions 0 segs).
Proof. intros Hwf Htail. unfold braceIndices. by rewrite loop_template. Qed.

Lemma braceIndices_ok_inv s idxs :
  braceIndices s = Ok idxs →
  ∃ segs tail, s = template_text segs tail ∧ Forall segment_wf segs ∧
               brace_free tail ∧ idxs = positions 0 segs.
Proof.
  intros Hrun. apply loop_ok_inv in Hrun as [Hzero _]; [|done]. by apply Hzero.
Qed.

Lemma template_text_unique segs tail segs' tail' :
  Forall segment_wf segs → brace_free tail →
  Forall segment_wf segs' → brace_free tail' →
  template_text segs tail = template_text segs' tail' →
  segs = segs' ∧ tail = tail'.
Proof.
  intros Hwf Htail Hwf' Htail' Htext.
  pose proof (braceIndices_template segs tail Hwf Htail) as Hscan.
  rewrite Htext, braceIndices_template in Hscan by done.
  injection Hscan as Hpos.
  by apply (positions_template_inj segs segs' [] tail tail').
Qed.

Lemma braceIndices_first_level s idxs :
  braceIndices s = Ok idxs →
  increasing idxs ∧
  ∀ o c, (∃ k, pair_of idxs k o c) ↔ first_level_pair s o c.
Proof.
  intros (segs & tail & -> & Hwf & Htail & ->)%braceIndices_ok_inv.
  split; [apply positions_increasing|]. intros o c. split.
  - intros [k Hk].
    by apply (positions_first_level tail segs [] k o c eq_refl Hwf) in Hk as [? _].
  - intros Hpair.
    apply (first_level_recorded tail Htail segs [] o c eq_refl Hwf); [simpl; lia|done].
Qed.

Lemma negative_depth_dips s : negative_depth s ↔ dips 0 s.
Proof. unfold negative_depth, dips, depth_at. done. Qed.

Lemma empty_first_top s :
  empty_first 0 false s ↔
  ∃ o, first_level_pair s o (S o) ∧ ∀ n, n ≤ o → (0 <= depth_at s n)%Z.
Proof.
  unfold empty_first, depth_at. split.
  - intros [[? _] | (k & Ho & Hc & Hz & Hpre)]; [done|].
    exists k. split; [|done]. apply empty_pair_iff. unfold depth_at. split_and!; [done|done|lia].
  - intros (o & (Ho & Hc & Hz)%empty_pair_iff & Hpre). right.
    exists o. unfold depth_at in Hz. split_and!; [done|done|lia|done].
Qed.

(** C9: on success the returned offsets come in pairs [(open, close)],
    strictly increasing from left to right, hence in order and without
    overlap; in each pair [open < close], [close > open + 1], the byte at
    [open] is an opening and the byte at [close] a closing brace. *)
Theorem braceIndices_pairs s idxs :
  braceIndices s = Ok idxs →
  Nat.Even (length idxs) ∧
  increasing idxs ∧
  (∀ k o c, pair_of idxs k o c →
     o < c ∧ o + 1 < c ∧ s !! o = Some lbrace ∧ s !! c = Some rbrace) ∧
  (∀ k k' o c o' c', k < k' →
     pair_of idxs k o c → pair_of idxs k' o' c' → c < o').
Proof.
  intros (segs & tail & -> & Hwf & Htail & ->)%braceIndices_ok_inv.
  assert (Hinc := positions_increasing segs 0).
  split_and!; [|done| |].
  - exists (length segs). apply length_positions.
  - intros k o c Hk.
    apply (positions_first_level tail segs [] k o c eq_refl Hwf) in Hk
      as [(Ho & Hc & Hlt & _) Hne].
    done.
  - intros k k' o c o' c' Hlt [_ Hc] [Ho' _].
    apply (Hinc (2 * k + 1) (2 * k')); [lia|done|done].
Qed.

Lemma braceIndices_pairs_witness :
  let s := str "/a/{x}/b/{y:[a-z]+}" in
  let idxs := [3; 5; 9; 18] in
  braceIndices s = Ok idxs ∧
  Nat.Even (length idxs) ∧
  increasing idxs ∧
  (∀ k o c, pair_of idxs k o c →
     o < c ∧ o + 1 < c ∧ s !! o = Some lbrace ∧ s !! c = Some rbrace) ∧
  (∀ k k' o c o' c', k < k' →
     pair_of idxs k o c → pair_of idxs k' o' c' → c < o').
Proof.
  split; [reflexivity|].
  apply (braceIndices_pairs (str "/a/{x}/b/{y:[a-z]+}") [3; 5; 9; 18]).
  reflexivity.
Defined.

(** C3: the scanner fails exactly when (a) the depth becomes negative
    somewhere, or (b) the depth is not zero at the end, or (c) some
    first-level pair is empty.  The scanner stops at the first of these it
    meets, from left to right: a negative depth, met before any empty
    pair, and a depth that is not zero at the end are reported as
    unbalanced braces; an empty pair, met before the depth has become
    negative, is reported as an empty placeholder; there is no other
    error.  Otherwise the scanner returns, in increasing order, the
    offsets of exactly the first-level pairs. *)
Theorem braceIndices_failure s :
  ((∃ e, braceIndices s = Err e) ↔
     negative_depth s ∨ open_at_end s ∨ empty_pair s) ∧
  (∀ e, braceIndices s = Err e →
     e = UnbalancedBraces s ∨ e = EmptyPlaceholder s) ∧
  (braceIndices s = Err (UnbalancedBraces s) →
     negative_depth s ∨ open_at_end s) ∧
  (braceIndices s = Err (EmptyPlaceholder s) ↔
     ∃ o, first_level_pair s o (S o) ∧ ∀ n, n ≤ o → (0 <= depth_at s n)%Z) ∧
  ((∃ n, n ≤ length s ∧ (depth_at s n < 0)%Z ∧
         ∀ o, S o < n → ¬ first_level_pair s o (S o)) →
     braceIndices s = Err (UnbalancedBraces s)) ∧
  (open_at_end s → ¬ empty_pair s →
     braceIndices s = Err (UnbalancedBraces s)) ∧
  (∀ idxs, braceIndices s = Ok idxs →
     increasing idxs ∧
     ∀ o c, (∃ k, pair_of idxs k o c) ↔ first_level_pair s o c).
Proof.
  assert (Hcases : ∀ e, braceIndices s = Err e →
            (e = UnbalancedBraces s ∧ (negative_depth s ∨ open_at_end s)) ∨
            (e = EmptyPlaceholder s ∧ empty_first 0 false s)).
  { intros e Hrun. apply loop_err_cases in Hrun; [|done|lia].
    rewrite negative_depth_dips. done. }
  assert (Hempty : empty_first 0 false s →
            braceIndices s = Err (EmptyPlaceholder s)).
  { intros Hemp. apply loop_empty_first; [done|lia|done]. }
  split_and!.
  - split.
    + intros [e [[_ [?|?]] | [_ Hemp]]%Hcases]; [by left|by right; left|].
      right; right. apply empty_first_top in Hemp as (o & Ho & _). by exists o.
    + intros Hbad. destruct (braceIndices s) as [idxs|e] eqn:Hrun; [|by exists e].
      exfalso. pose proof Hrun as [Hdip Hsum]%loop_ok_depth; [|done].
      destruct Hbad as [Ha | [Hb | [o Ho]]].
      * by apply negative_depth_dips in Ha.
      * apply Hb. lia.
      * assert (Hemp : empty_first 0 false s).
        { apply empty_first_top. exists o. split; [done|].
          intros n Hn. destruct (Z.lt_ge_cases (depth_at s n) 0) as [Hneg|]; [|done].
          destruct Hdip. destruct Ho as (Ho & _). apply lookup_lt_Some in Ho.
          exists n. unfold depth_at in Hneg. split; lia. }
        apply Hempty in Hemp. congruence.
  - intros e [[-> _] | [-> _]]%Hcases; [by left|by right].
  - intros [[_ ?] | [[=] _]]%Hcases. done.
  - rewrite <- empty_first_top. split; [|done].
    intros [[[=] _] | [_ ?]]%Hcases. done.
  - intros (n & Hn & Hneg & Hfirst).
    destruct (braceIndices s) as [idxs|e] eqn:Hrun.
    + apply loop_ok_depth in Hrun as [Hdip _]; [|done].
      destruct Hdip. exists n. unfold depth_at in Hneg. split; lia.
    + destruct (Hcases e eq_refl) as [[-> _] | [-> Hemp]]; [done|].
      exfalso. apply empty_first_top in Hemp as (o & Hpair & Hpre).
      destruct (Nat.lt_ge_cases (S o) n) as [Hlt|Hge]; [by eapply Hfirst|].
      apply empty_pair_iff in Hpair as (Ho & _ & Hz).
      destruct (Nat.eq_dec n (S o)) as [->|Hne].
      * rewrite (depth_at_S _ _ _ Ho), Hz, brace_delta_lbrace in Hneg. lia.
      * specialize (Hpre n ltac:(lia)). lia.
  - intros Hopen Hnone.
    destruct (braceIndices s) as [idxs|e] eqn:Hrun.
    + apply loop_ok_depth in Hrun as [_ Hsum]; [|done]. destruct Hopen. lia.
    + destruct (Hcases e eq_refl) as [[-> _] | [-> Hemp]]; [done|].
      exfalso. apply empty_first_top in Hemp as (o & Hpair & _).
      apply Hnone. by exists o.
  - apply braceIndices_first_level.
Qed.

(** ** Placeholder bodies *)

Lemma cut_None sep b : cut sep b = None ↔ sep ∉ b.
Proof.
  induction b as [|c b IH]; simpl.
  - split; [intros _; apply not_elem_of_nil|done].
  - rewrite not_elem_of_cons. destruct (Ascii.eqb_spec c sep) as [->|Hne].
    + split; [done|]. by intros [[] _].
    + destruct (cut sep b) as [[? ?]|]; [split; [done|]|].
      * intros [_ Hn]. by apply IH in Hn.
      * split; [|done]. intros _. split; [done|]. by apply IH.
Qed.

Lemma cut_Some sep b before after :
  cut sep b = Some (before, after) ↔ b = before ++ sep :: after ∧ sep ∉ before.
Proof.
  revert before. induction b as [|c b IH]; intros before; simpl.
  - split; [done|]. intros [Hb _]. by destruct before.
  - destruct (Ascii.eqb_spec c sep) as [->|Hne].
    + split.
      * intros [= <- <-]. split; [done|apply not_elem_of_nil].
      * intros [Hb Hn]. destruct before as [|d before]; simpl in Hb.
        -- by injection Hb as ->.
        -- injection Hb as <- _. destruct Hn. by left.
    + destruct (cut sep b) as [[b1 a1]|] eqn:Hcut.
      * split.
        -- intros [= <- <-]. destruct (proj1 (IH b1) eq_refl) as [-> Hn].
           split; [done|]. rewrite not_elem_of_cons. done.
        -- intros [Hb Hn]. destruct before as [|d before]; simpl in Hb.
           ++ injection Hb as -> _. done.
           ++ injection Hb as <- Hb. apply not_elem_of_cons in Hn as [_ Hn].
              by pose proof (proj2 (IH before) (conj Hb Hn)) as [= -> ->].
      * split; [done|]. intros [Hb Hn].
        destruct before as [|d before]; simpl in Hb.
        -- injection Hb as -> _. done.
        -- injection Hb as <- Hb. apply not_elem_of_cons in Hn as [_ Hn].
           by pose proof (proj2 (IH before) (conj Hb Hn)) as [=].
Qed.

(** Every body reads in exactly one way as [name] or [name:subpattern]. *)
Lemma placeholder_body_cut b name sub :
  placeholder_body b name sub ↔
  match cut colon b with
  | Some (before, after) => name = before ∧ sub = Some after
  | None => name = b ∧ sub = None
  end.
Proof.
  split.
  - intros [n Hn | n p Hn].
    + apply cut_None in Hn. by rewrite Hn.
    + by rewrite (proj2 (cut_Some colon (n ++ colon :: p) n p) (conj eq_refl Hn)).
  - destruct (cut colon b) as [[before after]|] eqn:Hcut.
    + intros [-> ->]. apply cut_Some in Hcut as [-> Hn]. by constructor.
    + intros [-> ->]. apply cut_None in Hcut. by constructor.
Qed.

Lemma placeholder_body_exists b : ∃ name sub, placeholder_body b name sub.
Proof.
  destruct (cut colon b) as [[before after]|] eqn:Hcut.
  - exists before, (Some after). apply placeholder_body_cut. by rewrite Hcut.
  - exists b, None. apply placeholder_body_cut. by rewrite Hcut.
Qed.

Lemma placeholder_body_unique b name sub name' sub' :
  placeholder_body b name sub → placeholder_body b name' sub' →
  name = name' ∧ sub = sub'.
Proof.
  rewrite !placeholder_body_cut.
  destruct (cut colon b) as [[? ?]|]; intros [-> ->] [-> ->]; done.
Qed.

(** The checks of the compiler on a body, in their order. *)
Lemma splitParameter_body b name sub :
  placeholder_body b name sub →
  splitParameter b =
  if decide (name = []) then Err (MissingParameterName b)
  else match sub with
       | None => Ok (name, default_pattern)
       | Some pattern =>
           if decide (pattern = []) then Err (MissingParameterPattern b)
           else Ok (name, pattern)
       end.
Proof.
  intros Hb%placeholder_body_cut. unfold splitParameter, SplitN2.
  destruct (cut colon b) as [[before after]|]; destruct Hb as [-> ->]; simpl.
  - unfold index; simpl. destruct (decide (before = [])) as [->|Hne].
    + by rewrite bool_decide_eq_true_2.
    + rewrite bool_decide_eq_false_2 by done.
      destruct (decide (after = [])) as [->|Hne'].
      * by rewrite bool_decide_eq_true_2.
      * by rewrite bool_decide_eq_false_2.
  - unfold index; simpl. destruct (decide (b = [])) as [->|Hne].
    + by rewrite bool_decide_eq_true_2.
    + by rewrite bool_decide_eq_false_2.
Qed.

Lemma splitParameter_ok b name pattern :
  splitParameter b = Ok (name, pattern) ↔
  ∃ sub, valid_body b name sub ∧ pattern = default default_pattern sub.
Proof.
  destruct (placeholder_body_exists b) as (n & sb & Hb).
  rewrite (splitParameter_body b n sb Hb). split.
  - destruct (decide (n = [])); [done|]. destruct sb as [pat|].
    + destruct (decide (pat = [])); [done|]. intros [= <- <-].
      exists (Some pat). split; [|done]. split_and!; [done|done|congruence].
    + intros [= <- <-]. exists None. split; [|done]. split_and!; done.
  - intros (sub & (Hb' & Hn & Hsub) & ->).
    destruct (placeholder_body_unique _ _ _ _ _ Hb Hb') as [-> ->].
    rewrite decide_False by done. destruct sub as [pat|]; [|done].
    rewrite decide_False by congruence. done.
Qed.

(** ** The compiler on a template *)

Lemma bind_ok {A B} (a : A) (k : A → result B) : (Ok a ≫= k) = k a.
Proof. reflexivity. Qed.

Lemma bind_err {A B} (e : panic) (k : A → result B) : (Err e ≫= k) = Err e.
Proof. reflexivity. Qed.

Lemma template_text_app segs tail :
  template_text segs tail = template_text segs [] ++ tail.
Proof.
  induction segs as [|sg segs IH]; simpl; [done|].
  rewrite IH, <- !app_assoc. simpl. by rewrite <- !app_assoc.
Qed.

Lemma slice_parts uri x y z a b :
  uri = x ++ y ++ z → a = length x → b = a + length y → slice uri a b = Ok y.
Proof.
  intros -> -> ->. unfold slice.
  rewrite (proj2 (Nat.leb_le _ _)) by lia.
  rewrite (proj2 (Nat.leb_le _ _)) by (rewrite !length_app; lia).
  simpl. f_equal. rewrite drop_app_length.
  replace (length x + length y - length x) with (length y) by lia.
  apply take_app_length.
Qed.

Lemma slice_from_parts uri x y a :
  uri = x ++ y → a = length x → slice_from uri a = Ok y.
Proof.
  intros -> ->. unfold slice_from.
  rewrite (proj2 (Nat.leb_le _ _)) by (rewrite length_app; lia).
  by rewrite drop_app_length.
Qed.

Lemma compile_loop_cons uri o c idxs end_ builder params :
  compileParameters_loop uri (o :: c :: idxs) end_ builder params =
  (raw ← slice uri end_ o;
   sub ← slice uri (o + 1) c;
   '(name, pattern) ← splitParameter sub;
   compileParameters_loop uri idxs (c + 1)
     (builder ++ raw ++ str "(" ++ pattern ++ str ")") (params ++ [name])).
Proof. reflexivity. Qed.

(** The loop walks the placeholders in order: it stops at the first
    invalid one and otherwise emits the literal text and one group for
    each, leaving [end] at the start of the trailing text. *)
Lemma compile_loop_template segs tail : ∀ pre builder params,
  compileParameters_loop (pre ++ template_text segs tail)
    (positions (length pre) segs) (length pre) builder params =
  (nps ← split_all segs;
   Ok (length pre + length (template_text segs []),
       builder ++ groups_text nps, params ++ names_of nps)).
Proof.
  induction segs as [|sg segs IH]; intros pre builder params.
  - simpl. rewrite ?bind_ok. simpl. by rewrite Nat.add_0_r, !app_nil_r.
  - simpl positions. rewrite compile_loop_cons.
    set (uri := pre ++ template_text (sg :: segs) tail).
    rewrite (slice_parts uri pre (literal sg)
               (lbrace :: body sg ++ rbrace :: template_text segs tail)
               (length pre) (length pre + length (literal sg))), bind_ok;
      [|reflexivity|reflexivity|reflexivity].
    rewrite (slice_parts uri (pre ++ literal sg ++ [lbrace]) (body sg)
               (rbrace :: template_text segs tail)
               (length pre + length (literal sg) + 1)
               (length pre + length (literal sg) + 1 + length (body sg))), bind_ok;
      [|subst uri; simpl; by rewrite <- !app_assoc
       |rewrite !length_app; simpl; lia|reflexivity].
    simpl split_all.
    destruct (splitParameter (body sg)) as [[name pattern]|e]; [|done].
    rewrite !bind_ok. subst uri. rewrite template_after.
    replace (length pre + length (literal sg) + 1 + length (body sg) + 1)
      with (length (pre ++ literal sg ++ lbrace :: body sg ++ [rbrace]))
      by (rewrite length_after; lia).
    replace (S (length pre + length (literal sg) + 1 + length (body sg)))
      with (length (pre ++ literal sg ++ lbrace :: body sg ++ [rbrace]))
      by (rewrite length_after; lia).
    rewrite IH. destruct (split_all segs) as [nps|e]; [|done].
    rewrite !bind_ok. f_equal. f_equal; [f_equal|].
    + rewrite length_after. simpl. rewrite !length_app. simpl.
      rewrite length_app. simpl. lia.
    + unfold groups_text. simpl. by rewrite <- !app_assoc.
    + simpl. by rewrite <- app_assoc.
Qed.

Lemma assemblePattern_template segs tail ends params :
  assemblePattern (template_text segs tail) ends (positions 0 segs) params =
  (nps ← split_all segs;
   Ok (str "^" ++ groups_text nps ++ tail ++ (if ends then str "$" else []),
       params ++ names_of nps)).
Proof.
  unfold assemblePattern. destruct segs as [|sg segs].
  - simpl. destruct ends; simpl; by rewrite ?app_nil_r.
  - rewrite length_positions.
    replace (0 <? 2 * length (sg :: segs)) with true by done.
    pose proof (compile_loop_template (sg :: segs) tail [] (str "^") params)
      as Hloop.
    change ([] ++ ?x) with x in Hloop.
    change (length (@nil ascii)) with 0 in Hloop.
    rewrite Hloop. clear Hloop.
    destruct (split_all (sg :: segs)) as [nps|e]; [|done].
    rewrite !bind_ok.
    rewrite (slice_from_parts _ (template_text (sg :: segs) []) tail), bind_ok;
      [|apply template_text_app|done].
    rewrite bind_ok. destruct ends; rewrite <- ?app_assoc; [done|].
    by rewrite app_nil_r.
Qed.

(** The compiler on a well-formed template, step by step. *)
Lemma compileParameters_template `{RegexpEngine} p segs tail ends :
  Forall segment_wf segs → brace_free tail →
  compileParameters p (template_text segs tail) ends =
  (nps ← split_all segs;
   let pattern :=
     str "^" ++ groups_text nps ++ tail ++ (if ends then str "$" else []) in
   match MustCompile pattern with
   | None => Err (InvalidPattern pattern)
   | Some re =>
       if negb (NumSubexp re =? length segs)
       then Err (UnexpectedCapturingGroup (template_text segs tail))
       else Ok {| regex := Some re; parameters := parameters p ++ names_of nps |}
   end).
Proof.
  intros Hwf Htail. unfold compileParameters.
  rewrite braceIndices_template, bind_ok by done.
  rewrite assemblePattern_template.
  destruct (split_all segs) as [nps|e]; [|done].
  rewrite !bind_ok. rewrite length_positions.
  by replace (2 * length segs / 2) with (length segs)
    by (rewrite Nat.mul_comm, Nat.div_mul; done).
Qed.

(** What [split_all] accepts: every body is valid, the names come in
    template order and the groups are those of the spec's pattern. *)
Lemma split_all_ok segs tail : ∀ nps,
  split_all segs = Ok nps →
  ∃ phs : list (gostring * option gostring),
    Forall2 (λ sg ph, valid_body (body sg) ph.1 ph.2) segs phs ∧
    names_of nps = phs.*1 ∧
    groups_text nps ++ tail = pattern_body (zip segs phs.*2) tail.
Proof.
  induction segs as [|sg segs IH]; intros nps.
  - intros [= <-]. exists []. split_and!; [constructor|done|done].
  - simpl split_all.
    destruct (splitParameter (body sg)) as [[name pattern]|e] eqn:Hsp; [|done].
    rewrite bind_ok. destruct (split_all segs) as [nps'|e]; [|done].
    rewrite bind_ok. intros [= <-].
    apply splitParameter_ok in Hsp as (sub & Hvalid & ->).
    destruct (IH nps' eq_refl) as (phs & Hall & Hnames & Hgroups).
    exists ((name, sub) :: phs). split_and!.
    + by constructor.
    + simpl. by rewrite Hnames.
    + set (rest := pattern_body (zip segs phs.*2) tail) in *.
      change (pattern_body (zip (sg :: segs) ((name, sub) :: phs).*2) tail)
        with (literal sg ++ group_text sub ++ rest).
      rewrite <- Hgroups. unfold groups_text, group_text. simpl.
      rewrite <- ?app_assoc. simpl. by rewrite <- ?app_assoc.
Qed.

Lemma pattern_body_app l tail anchor :
  pattern_body l (tail ++ anchor) = pattern_body l tail ++ anchor.
Proof.
  induction l as [|[sg sub] l IH]; [done|].
  change (pattern_body ((sg, sub) :: l) ?t)
    with (literal sg ++ group_text sub ++ pattern_body l t).
  by rewrite IH, <- !app_assoc.
Qed.

(** A successful compilation, read back. *)
Lemma compileParameters_ok_inv `{RegexpEngine} p uri ends p' :
  compileParameters p uri ends = Ok p' →
  ∃ segs tail nps re,
    uri = template_text segs tail ∧ Forall segment_wf segs ∧ brace_free tail ∧
    braceIndices uri = Ok (positions 0 segs) ∧
    split_all segs = Ok nps ∧
    MustCompile
      (str "^" ++ groups_text nps ++ tail ++ (if ends then str "$" else [])) =
      Some re ∧
    NumSubexp re = length segs ∧
    p' = {| regex := Some re; parameters := parameters p ++ names_of nps |}.
Proof.
  intros Hrun.
  destruct (braceIndices uri) as [idxs|e] eqn:Hscan;
    [|by unfold compileParameters in Hrun; rewrite Hscan in Hrun].
  pose proof Hscan as (segs & tail & -> & Hwf & Htail & ->)%braceIndices_ok_inv.
  rewrite compileParameters_template in Hrun by done.
  destruct (split_all segs) as [nps|e] eqn:Hsplit; [|done].
  rewrite bind_ok in Hrun. cbv zeta in Hrun.
  destruct (MustCompile _) as [re|] eqn:Hre; [|done].
  destruct (Nat.eqb_spec (NumSubexp re) (length segs)) as [Hn|Hn]; [|done].
  injection Hrun as <-. by exists segs, tail, nps, re.
Qed.

(** ** Deciding well-formedness of a concrete template *)

Lemma prefixes_nonneg_spec b : ∀ level,
  prefixes_nonneg level b = true ↔
  ∀ n, n ≤ length b → (0 <= level + depth (take n b))%Z.
Proof.
  induction b as [|c b IH]; intros level; simpl.
  - rewrite andb_true_r, Z.leb_le. split.
    + intros Hl n _. rewrite take_nil. simpl. lia.
    + intros Hl. specialize (Hl 0). simpl in Hl. lia.
  - rewrite andb_true_iff, Z.leb_le, IH. split.
    + intros [Hl Hpre] [|n] Hn; simpl; [lia|]. specialize (Hpre n). lia.
    + intros Hpre. split.
      * specialize (Hpre 0). simpl in Hpre. lia.
      * intros n Hn. specialize (Hpre (S n)). simpl in Hpre. lia.
Qed.

Global Instance brace_free_dec t : Decision (brace_free t).
Proof. unfold brace_free. apply _. Defined.

Lemma balanced_check b :
  balanced b ↔ depth b = 0%Z ∧ prefixes_nonneg 0 b = true.
Proof. unfold balanced. rewrite prefixes_nonneg_spec. naive_solver. Qed.

Global Instance balanced_dec b : Decision (balanced b).
Proof.
  refine (cast_if (decide (depth b = 0%Z ∧ prefixes_nonneg 0 b = true)));
    by rewrite balanced_check.
Defined.

Global Instance segment_wf_dec sg : Decision (segment_wf sg).
Proof. unfold segment_wf. apply _. Defined.

(** A decidable fact about concrete data, by evaluation. *)
Ltac by_decision :=
  lazymatch goal with
  | |- ?P => refine (bool_decide_eq_true_1 P _); vm_compute; reflexivity
  end.

(** ** The pattern compiler *)

(** C1: a template with [k] well-formed placeholders that compiles yields
    [k] parameter names, the names of the placeholders in template order,
    and a pattern with exactly [k] capturing groups. *)
Theorem compileParameters_counts `{RegexpEngine} segs tail ends p' :
  Forall segment_wf segs → brace_free tail →
  compileParameters new_parametrizeable (template_text segs tail) ends = Ok p' →
  length (parameters p') = length segs ∧
  Forall2 (λ sg name, ∃ sub, valid_body (body sg) name sub)
    segs (parameters p') ∧
  ∃ re, regex p' = Some re ∧ NumSubexp re = length segs.
Proof.
  intros Hwf Htail Hrun. rewrite compileParameters_template in Hrun by done.
  destruct (split_all segs) as [nps|e] eqn:Hsplit; [|done].
  rewrite bind_ok in Hrun. cbv zeta in Hrun.
  destruct (MustCompile _) as [re|]; [|done].
  destruct (Nat.eqb_spec (NumSubexp re) (length segs)) as [Hn|Hn]; [|done].
  injection Hrun as <-. simpl.
  destruct (split_all_ok segs tail nps Hsplit) as (phs & Hall & -> & _).
  split_and!.
  - rewrite length_fmap. symmetry. by eapply Forall2_length.
  - apply Forall2_fmap_r. eapply Forall2_impl; [done|].
    intros sg [name sub] Hv. by exists sub.
  - by exists re.
Qed.

(** On a receiver that already has parameters the names are appended. *)
Lemma compileParameters_appends `{RegexpEngine} p uri ends p' :
  compileParameters p uri ends = Ok p' →
  ∃ names re, parameters p' = parameters p ++ names ∧
    regex p' = Some re ∧ length names = NumSubexp re.
Proof.
  intros (segs & tail & nps & re & -> & _ & _ & _ & Hsplit & _ & Hnum & ->)
    %compileParameters_ok_inv.
  exists (names_of nps), re. split_and!; [done|done|].
  destruct (split_all_ok segs tail nps Hsplit) as (phs & Hall & -> & _).
  rewrite length_fmap, Hnum. symmetry. by eapply Forall2_length.
Qed.

Lemma compileParameters_counts_witness :
  let segs := [ {| literal := str "/a/"; body := str "x" |};
                {| literal := str "/b/"; body := str "y:[a-z]+" |} ] in
  ∃ p',
    Forall segment_wf segs ∧ brace_free [] ∧
    compileParameters (H := Backtrack.engine) new_parametrizeable
      (template_text segs []) true = Ok p' ∧
    length (parameters p') = length segs ∧
    Forall2 (λ sg name, ∃ sub, valid_body (body sg) name sub)
      segs (parameters p') ∧
    ∃ re, regex p' = Some re ∧ NumSubexp re = length segs.
Proof.
  intros segs.
  assert (Hwf : Forall segment_wf segs).
  { by_decision. }
  assert (Hrun : ∃ p', compileParameters (H := Backtrack.engine)
                         new_parametrizeable (template_text segs []) true = Ok p').
  { eexists. reflexivity. }
  destruct Hrun as [p' Hrun].
  exists p'. split_and!; [done|apply brace_free_nil|done|..];
    apply (compileParameters_counts (H := Backtrack.engine)
             segs [] true p' Hwf brace_free_nil Hrun).
Defined.

(** C2: the pattern handed to the matching engine is the start anchor,
    then for each placeholder in order the literal text before it,
    unchanged, and one group holding the subpattern if there is one and
    [[^/]+] otherwise, then the trailing text, then the end anchor exactly
    when [ends] is set. *)
Theorem compileParameters_pattern `{RegexpEngine} p uri ends p' :
  compileParameters p uri ends = Ok p' →
  (∃ segs tail, uri = template_text segs tail ∧
     Forall segment_wf segs ∧ brace_free tail) ∧
  ∀ segs tail,
    uri = template_text segs tail → Forall segment_wf segs → brace_free tail →
    ∃ phs idxs pattern,
      Forall2 (λ sg ph, valid_body (body sg) ph.1 ph.2) segs phs ∧
      braceIndices uri = Ok idxs ∧
      assemblePattern uri ends idxs (parameters p) = Ok (pattern, parameters p') ∧
      MustCompile pattern = regex p' ∧
      pattern = pattern_text (zip segs phs.*2) tail ends.
Proof.
  intros Hrun. split.
  { apply compileParameters_ok_inv in Hrun
      as (segs & tail & _ & _ & -> & Hwf & Htail & _).
    by exists segs, tail. }
  intros segs tail -> Hwf Htail.
  rewrite compileParameters_template in Hrun by done.
  destruct (split_all segs) as [nps|e] eqn:Hsplit; [|done].
  rewrite bind_ok in Hrun. cbv zeta in Hrun.
  destruct (MustCompile _) as [re|] eqn:Hre; [|done].
  destruct (negb _); [done|]. injection Hrun as <-.
  destruct (split_all_ok segs (tail ++ if ends then str "$" else []) nps Hsplit)
    as (phs & Hall & Hnames & Hgroups).
  exists phs, (positions 0 segs), (str "^" ++ groups_text nps ++ tail ++
                                   (if ends then str "$" else [])).
  split_and!; [done| | |done|].
  - by apply braceIndices_template.
  - by rewrite assemblePattern_template, Hsplit.
  - unfold pattern_text. f_equal. by rewrite Hgroups, pattern_body_app.
Qed.

Lemma compileParameters_pattern_witness :
  let uri := str "/a/{x}/b/{y:[a-z]+}" in
  let segs := [ {| literal := str "/a/"; body := str "x" |};
                {| literal := str "/b/"; body := str "y:[a-z]+" |} ] in
  ∃ p',
    compileParameters (H := Backtrack.engine) new_parametrizeable uri false = Ok p' ∧
    ∃ phs idxs,
      Forall2 (λ sg ph, valid_body (body sg) ph.1 ph.2) segs phs ∧
      braceIndices uri = Ok idxs ∧
      assemblePattern uri false idxs [] =
        Ok (pattern_text (zip segs phs.*2) [] false, parameters p') ∧
      MustCompile (pattern_text (zip segs phs.*2) [] false) = regex p'.
Proof.
  intros uri segs.
  assert (Hrun : ∃ p', compileParameters (H := Backtrack.engine)
                         new_parametrizeable uri false = Ok p').
  { eexists. reflexivity. }
  destruct Hrun as [p' Hrun].
  exists p'. split; [done|].
  destruct (compileParameters_pattern (H := Backtrack.engine)
              new_parametrizeable uri false p' Hrun) as [_ Hpattern].
  destruct (Hpattern segs [] eq_refl) as (phs & idxs & pattern & ? & ? & ? & ? & ->).
  - by_decision.
  - apply brace_free_nil.
  - by exists phs, idxs.
Defined.

(** C4: when the assembled pattern compiles but its number of capturing
    groups differs from the number of placeholders the scanner found, the
    compiler panics with the error that names the template; whenever it
    returns, each name added has its group. *)
Theorem compileParameters_capture_groups `{RegexpEngine} p uri ends
    idxs pattern params re :
  braceIndices uri = Ok idxs →
  assemblePattern uri ends idxs (parameters p) = Ok (pattern, params) →
  MustCompile pattern = Some re →
  NumSubexp re ≠ length idxs / 2 →
  compileParameters p uri ends = Err (UnexpectedCapturingGroup uri) ∧
  ∀ uri' ends' p', compileParameters p uri' ends' = Ok p' →
    ∃ idxs' re', braceIndices uri' = Ok idxs' ∧ regex p' = Some re' ∧
      NumSubexp re' = length idxs' / 2 ∧
      length (parameters p') = length (parameters p) + NumSubexp re'.
Proof.
  intros Hscan Hasm Hre Hn. split.
  - unfold compileParameters. rewrite Hscan, bind_ok, Hasm, bind_ok, Hre.
    by destruct (Nat.eqb_spec (NumSubexp re) (length idxs / 2)).
  - intros uri' ends' p'
      (segs & tail & nps & re' & -> & Hwf & Htail & Hscan' & Hsplit & Hre' & Hnum & ->)
      %compileParameters_ok_inv.
    exists (positions 0 segs), re'.
    destruct (split_all_ok segs tail nps Hsplit) as (phs & Hall & Hnames & _).
    split_and!; [done|done| |].
    + rewrite length_positions, Hnum.
      by rewrite Nat.mul_comm, Nat.div_mul.
    + simpl. rewrite length_app, Hnames, length_fmap, Hnum.
      f_equal. symmetry. by eapply Forall2_length.
Qed.

Lemma compileParameters_capture_groups_witness :
  let uri := str "/{id:(foo)}" in
  let pattern := str "^/((foo))$" in
  ∃ re,
    braceIndices uri = Ok [1; 10] ∧
    assemblePattern uri true [1; 10] [] = Ok (pattern, [str "id"]) ∧
    MustCompile (RegexpEngine := Backtrack.engine) pattern = Some re ∧
    NumSubexp re = 2 ∧
    compileParameters (H := Backtrack.engine) new_parametrizeable uri true =
      Err (UnexpectedCapturingGroup uri).
Proof.
  intros uri pattern.
  assert (Hre : ∃ re, MustCompile (RegexpEngine := Backtrack.engine) pattern = Some re
                      ∧ NumSubexp re = 2).
  { eexists. split; reflexivity. }
  destruct Hre as (re & Hre & Hnum).
  exists re. split_and!; [reflexivity|reflexivity|done|done|].
  apply (compileParameters_capture_groups (H := Backtrack.engine)
           new_parametrizeable uri true [1; 10] pattern [str "id"] re);
    [reflexivity|reflexivity|done|].
  rewrite Hnum. vm_compute. lia.
Defined.

(** ** The grammar of templates *)

Lemma app_pivot (a : ascii) l1 l2 k1 k2 :
  a ∉ l1 → a ∉ k1 → l1 ++ a :: l2 = k1 ++ a :: k2 → l1 = k1 ∧ l2 = k2.
Proof.
  revert k1. induction l1 as [|c l1 IH]; intros [|d k1] Hl Hk Heq; simpl in Heq.
  - by injection Heq as ->.
  - injection Heq as <- _. destruct Hk. by left.
  - injection Heq as -> _. destruct Hl. by left.
  - injection Heq as -> Heq.
    apply not_elem_of_cons in Hl as [_ Hl]. apply not_elem_of_cons in Hk as [_ Hk].
    by destruct (IH k1 Hl Hk Heq) as [-> ->].
Qed.

Lemma strict_body_rbrace b : strict_body b → rbrace ∉ b.
Proof.
  intros (name & sub & Hb & _ & Hname & Hsub). destruct Hb as [n _|n pat _]; [done|].
  destruct (Hsub pat eq_refl) as [_ Hpat].
  rewrite not_elem_of_app, not_elem_of_cons. done.
Qed.

(** C8, as amended: compilation succeeds only on templates of the grammar
    in which the braces inside a placeholder nest: the literal text has no
    braces, every placeholder has a non-empty name without [':'] and, after
    a [':'], a non-empty subpattern, and the braces inside the placeholder
    are balanced.  A template outside this grammar is rejected. *)
Theorem compileParameters_grammar `{RegexpEngine} p uri ends p' :
  compileParameters p uri ends = Ok p' → in_nested_grammar uri.
Proof.
  intros (segs & tail & nps & re & -> & Hwf & Htail & _ & Hsplit & _)
    %compileParameters_ok_inv.
  exists segs, tail. split_and!; [done| |done].
  destruct (split_all_ok segs tail nps Hsplit) as (phs & Hall & _).
  clear Hsplit. revert phs Hall.
  induction Hwf as [|sg segs (Hlit & Hne & Hbal) Hwf IH]; intros phs Hall;
    [constructor|].
  apply Forall2_cons_inv_l in Hall as ([name sub] & phs' & Hv & Hall & ->).
  constructor; [|by eapply IH].
  split; [done|]. split; [done|]. by exists name, sub.
Qed.

Lemma compileParameters_grammar_witness :
  ∃ p',
    compileParameters (H := Backtrack.engine) new_parametrizeable
      (str "/{n:[0-9]+}/x") true = Ok p' ∧
    in_nested_grammar (str "/{n:[0-9]+}/x").
Proof.
  assert (Hrun : ∃ p', compileParameters (H := Backtrack.engine)
                         new_parametrizeable (str "/{n:[0-9]+}/x") true = Ok p').
  { eexists. reflexivity. }
  destruct Hrun as [p' Hrun].
  exists p'. split; [done|].
  apply (compileParameters_grammar (H := Backtrack.engine)
           new_parametrizeable (str "/{n:[0-9]+}/x") true p' Hrun).
Defined.

(** The template ["/{{a}}"] is outside the grammar of the spec, and it
    compiles: the parameter is named ["{a}"]. *)
Lemma nested_braces_counterexample :
  (∃ p', compileParameters (H := Backtrack.engine) new_parametrizeable
           (str "/{{a}}") true = Ok p' ∧
         parameters p' = [str "{a}"]) ∧
  ¬ in_grammar (str "/{{a}}").
Proof.
  split; [eexists; split; reflexivity|].
  intros (segs & tail & Huri & Hwf & Htail).
  destruct segs as [|sg segs]; simpl in Huri.
  { subst tail. destruct Htail as [Hl _]. apply Hl.
    by_decision. }
  apply Forall_cons in Hwf as [[Hlit Hbody%strict_body_rbrace] Hwf].
  apply (app_pivot lbrace (str "/") (str "{a}}") (literal sg)) in Huri
    as [_ Hrest]; [| |by destruct Hlit].
  2:{ by_decision. }
  apply (app_pivot rbrace (str "{a") (str "}") (body sg)) in Hrest
    as [_ Hrest]; [| |done].
  2:{ by_decision. }
  destruct segs as [|sg' segs]; simpl in Hrest.
  { subst tail. destruct Htail as [_ Hr]. apply Hr. by left. }
  apply Forall_cons in Hwf as [[[_ Hlit'] _] _].
  destruct (literal sg') as [|c l]; simpl in Hrest; [discriminate Hrest|].
  injection Hrest as <- _. apply Hlit'. by left.
Qed.

(** ** The checks on a placeholder *)

Lemma split_all_first_error segs1 sg segs2 e :
  Forall (λ sg, is_ok (splitParameter (body sg)) = true) segs1 →
  splitParameter (body sg) = Err e →
  split_all (segs1 ++ sg :: segs2) = Err e.
Proof.
  intros Hok Herr. induction Hok as [|sg1 segs1 Hsg _ IH]; simpl.
  - by rewrite Herr.
  - destruct (splitParameter (body sg1)) as [[name pattern]|]; [|done].
    by rewrite bind_ok, IH.
Qed.

(** C6, as amended: a body is split at its first [':'] only.  An empty
    name fails with [MissingParameterName], whatever follows; a non-empty
    name with a [':'] and nothing after it fails with
    [MissingParameterPattern]; without [':'] the pattern is [[^/]+].  The
    compilation of a template fails with the error of its first invalid
    placeholder. *)
Theorem splitParameter_checks `{RegexpEngine} b name sub :
  placeholder_body b name sub →
  (colon ∉ name) ∧
  b = name ++ match sub with Some pattern => colon :: pattern | None => [] end ∧
  (name = [] → splitParameter b = Err (MissingParameterName b)) ∧
  (name ≠ [] → sub = Some [] → splitParameter b = Err (MissingParameterPattern b)) ∧
  (name ≠ [] → sub = None → splitParameter b = Ok (name, default_pattern)) ∧
  (∀ pattern, name ≠ [] → sub = Some pattern → pattern ≠ [] →
     splitParameter b = Ok (name, pattern)) ∧
  (∀ p segs1 segs2 lit tail ends e,
     let segs := segs1 ++ {| literal := lit; body := b |} :: segs2 in
     Forall segment_wf segs → brace_free tail →
     Forall (λ sg, is_ok (splitParameter (body sg)) = true) segs1 →
     splitParameter b = Err e →
     compileParameters p (template_text segs tail) ends = Err e).
Proof.
  intros Hb. pose proof (splitParameter_body b name sub Hb) as Hsp.
  split_and!.
  - by destruct Hb.
  - destruct Hb; [by rewrite app_nil_r|done].
  - intros ->. by rewrite Hsp.
  - intros Hne ->. rewrite Hsp, decide_False by done. done.
  - intros Hne ->. by rewrite Hsp, decide_False.
  - intros pattern Hne -> Hpat. by rewrite Hsp, !decide_False.
  - intros p segs1 segs2 lit tail ends e segs Hwf Htail Hok Herr.
    rewrite compileParameters_template by done. unfold segs.
    by rewrite (split_all_first_error segs1 {| literal := lit; body := b |}
                  segs2 e Hok Herr).
Qed.

Lemma splitParameter_checks_witness :
  let b := str "id:" in
  let segs := [ {| literal := str "/a/"; body := str "x" |};
                {| literal := str "/"; body := b |} ] in
  placeholder_body b (str "id") (Some []) ∧
  splitParameter b = Err (MissingParameterPattern b) ∧
  compileParameters (H := Backtrack.engine) new_parametrizeable
    (template_text segs (str "/z")) true = Err (MissingParameterPattern b).
Proof.
  intros b segs.
  assert (Hb : placeholder_body b (str "id") (Some [])).
  { apply (body_constrained (str "id") []). by_decision. }
  destruct (splitParameter_checks (H := Backtrack.engine) b (str "id") (Some []) Hb)
    as (_ & _ & _ & Hpat & _ & _ & Hcompile).
  split_and!; [done|by apply Hpat|].
  apply (Hcompile new_parametrizeable [ {| literal := str "/a/"; body := str "x" |} ]
           [] (str "/") (str "/z") true).
  - by_decision.
  - by_decision.
  - constructor; [reflexivity|constructor].
  - by apply Hpat.
Defined.

(** The body [":"] has a [':'] with nothing after it, and the compilation
    fails with [MissingParameterName], not [MissingParameterPattern]. *)
Lemma colon_only_counterexample :
  placeholder_body (str ":") [] (Some []) ∧
  splitParameter (str ":") = Err (MissingParameterName (str ":")) ∧
  compileParameters (H := Backtrack.engine) new_parametrizeable
    (str "/{:}") true = Err (MissingParameterName (str ":")) ∧
  compileParameters (H := Backtrack.engine) new_parametrizeable
    (str "/{:}") true ≠ Err (MissingParameterPattern (str ":")).
Proof.
  split_and!; [|reflexivity|reflexivity|discriminate].
  apply (body_constrained [] []), not_elem_of_nil.
Qed.

(** ** The parameter binder *)

Lemma last_binding_None names : ∀ match_ name,
  last_binding names match_ name = None ↔
  ∀ j, j < length match_ → names !! j ≠ Some name.
Proof.
  induction names as [|n names IH]; intros match_ name.
  - split; [|done]. intros _ j _. by rewrite lookup_nil.
  - destruct match_ as [|v match_]; simpl.
    + split; [|done]. intros _ j Hj. lia.
    + destruct (last_binding names match_ name) as [w|] eqn:Hlast.
      * split; [done|]. intros Hall.
        assert (Hnone : last_binding names match_ name = None).
        { apply IH. intros j Hj. apply (Hall (S j)). lia. }
        congruence.
      * destruct (decide (n = name)) as [->|Hne].
        -- split; [done|]. intros Hall. by destruct (Hall 0 ltac:(lia)).
        -- split; [|done]. intros _ [|j] Hj; simpl; [congruence|].
           apply (proj1 (IH match_ name) Hlast). lia.
Qed.

Lemma last_binding_Some names : ∀ match_ name v,
  last_binding names match_ name = Some v ↔
  ∃ i, names !! i = Some name ∧ match_ !! i = Some v ∧
       ∀ j, i < j → j < length match_ → names !! j ≠ Some name.
Proof.
  induction names as [|n names IH]; intros match_ name v.
  - split; [done|]. intros (i & Hi & _). by rewrite lookup_nil in Hi.
  - destruct match_ as [|w match_]; simpl.
    + split; [done|]. intros (i & _ & Hi & _). by rewrite lookup_nil in Hi.
    + destruct (last_binding names match_ name) as [u|] eqn:Hlast.
      * split.
        -- intros [= ->]. apply IH in Hlast as (i & Hn & Hm & Hlater).
           exists (S i). split_and!; [done|done|].
           intros [|j] Hij Hj; [lia|]. simpl. apply Hlater; lia.
        -- intros ([|i] & Hn & Hm & Hlater); simpl in *.
           ++ assert (Hnone : last_binding names match_ name = None).
              { apply last_binding_None. intros j Hj.
                apply (Hlater (S j)); lia. }
              congruence.
           ++ assert (Hsome : last_binding names match_ name = Some v).
              { apply IH. exists i. split_and!; [done|done|].
                intros j Hij Hj. apply (Hlater (S j)); lia. }
              congruence.
      * pose proof (proj1 (last_binding_None names match_ name) Hlast) as Hnone.
        destruct (decide (n = name)) as [->|Hne].
        -- split.
           ++ intros [= ->]. exists 0. split_and!; [done|done|].
              intros [|j] Hij Hj; [lia|]. simpl. apply Hnone. lia.
           ++ intros ([|i] & Hn & Hm & _); simpl in *; [congruence|].
              apply lookup_lt_Some in Hm. by destruct (Hnone i Hm).
        -- split; [done|].
           intros ([|i] & Hn & Hm & _); simpl in *; [congruence|].
           apply lookup_lt_Some in Hm. by destruct (Hnone i Hm).
Qed.

(** The loop of the binder, when every captured value has a name. *)
Lemma makeParameters_loop_ok match_ : ∀ i names params,
  i + length match_ ≤ length names →
  ∃ m, makeParameters_loop match_ i names params = Ok m ∧
    (∀ name, m !! name =
       match last_binding (drop i names) match_ name with
       | Some v => Some v
       | None => params !! name
       end) ∧
    size m ≤ size params + length match_.
Proof.
  induction match_ as [|v match_ IH]; intros i names params Hlen.
  - exists params. split_and!; [done| |lia].
    intros name. by destruct (drop i names).
  - simpl in Hlen. simpl makeParameters_loop. unfold index.
    destruct (names !! i) as [n|] eqn:Hn.
    2:{ apply lookup_ge_None in Hn. lia. }
    rewrite bind_ok.
    destruct (IH (S i) names (<[n:=v]> params) ltac:(lia)) as (m & -> & Hm & Hsize).
    exists m. split_and!; [done| |].
    + intros name. rewrite Hm, (drop_S _ _ _ Hn). simpl.
      destruct (last_binding (drop (S i) names) match_ name); [done|].
      destruct (decide (n = name)) as [->|Hne].
      * apply lookup_insert_eq.
      * by apply lookup_insert_ne.
    + pose proof (map_size_insert n v params) as Hins.
      destruct (params !! n); unfold id in Hins; simpl; lia.
Qed.

(** The loop panics as soon as a captured value has no name. *)
Lemma makeParameters_loop_panic match_ : ∀ i names params,
  i ≤ length names → length names < i + length match_ →
  makeParameters_loop match_ i names params = Err IndexOutOfRange.
Proof.
  induction match_ as [|v match_ IH]; intros i names params Hi Hlen.
  - simpl in Hlen. lia.
  - simpl in *. unfold index. destruct (names !! i) as [n|] eqn:Hn; [|done].
    rewrite bind_ok. apply lookup_lt_Some in Hn. apply IH; lia.
Qed.

(** C5: for lists of equal length the binder returns a mapping that binds
    the name at position [i] to the captured value at position [i]; a name
    that occurs at several positions keeps the value of its last one, and
    the keys are the distinct names. *)
Theorem makeParameters_binds (match_ names : list gostring) :
  length match_ = length names →
  ∃ m, makeParameters match_ names = Ok m ∧
    (∀ i name v, names !! i = Some name → match_ !! i = Some v →
       (∀ j, i < j → names !! j ≠ Some name) → m !! name = Some v) ∧
    (∀ name v, m !! name = Some v →
       ∃ i, names !! i = Some name ∧ match_ !! i = Some v ∧
            ∀ j, i < j → names !! j ≠ Some name) ∧
    dom m =@{gset gostring} list_to_set names.
Proof.
  intros Hlen.
  destruct (makeParameters_loop_ok match_ 0 names ∅ ltac:(simpl; lia))
    as (m & Hrun & Hm & _).
  exists m. rewrite drop_0 in Hm. split_and!; [done| | |].
  - intros i name v Hn Hv Hlast. rewrite Hm.
    assert (Hb : last_binding names match_ name = Some v).
    { apply last_binding_Some. exists i. split_and!; [done|done|].
      intros j Hij _. by apply Hlast. }
    by rewrite Hb.
  - intros name v. rewrite Hm.
    destruct (last_binding names match_ name) as [w|] eqn:Hb;
      [|by rewrite lookup_empty].
    intros [= ->]. apply last_binding_Some in Hb as (i & Hn & Hv & Hlast).
    exists i. split_and!; [done|done|].
    intros j Hij. destruct (Nat.lt_ge_cases j (length match_)) as [Hj|Hj].
    + by apply Hlast.
    + rewrite (proj2 (lookup_ge_None names j)) by lia. done.
  - apply set_eq. intros name.
    rewrite elem_of_dom, elem_of_list_to_set, Hm. split.
    + destruct (last_binding names match_ name) as [w|] eqn:Hb.
      * intros _. apply last_binding_Some in Hb as (i & Hn & _).
        by eapply list_elem_of_lookup_2.
      * rewrite lookup_empty. by intros [? ?].
    + intros (i & Hn)%list_elem_of_lookup_1.
      destruct (last_binding names match_ name) as [w|] eqn:Hb; [by eexists|].
      exfalso. apply (proj1 (last_binding_None names match_ name) Hb i); [|done].
      apply lookup_lt_Some in Hn. lia.
Qed.

Lemma makeParameters_binds_witness :
  let match_ := [str "1"; str "foo"; str "2"] in
  let names := [str "x"; str "y"; str "x"] in
  length match_ = length names ∧
  ∃ m, makeParameters match_ names = Ok m ∧
    m !! str "x" = Some (str "2") ∧ m !! str "y" = Some (str "foo") ∧
    dom m =@{gset gostring} list_to_set names.
Proof.
  intros match_ names. split; [reflexivity|].
  destruct (makeParameters_binds match_ names eq_refl) as (m & Hrun & Hbind & _ & Hdom).
  exists m. split_and!; [done| | |done].
  - apply (Hbind 2); [reflexivity|reflexivity|].
    intros j Hj. rewrite (proj2 (lookup_ge_None names j)) by (simpl; lia). done.
  - apply (Hbind 1); [reflexivity|reflexivity|].
    intros [|[|[|j]]] Hj; simpl; try lia; [discriminate|by rewrite lookup_nil].
Defined.

(** C10: with no more captured values than names the binder returns a
    mapping with at most one entry for each captured value; with more
    captured values than names it panics with an index out of range. *)
Theorem makeParameters_total (match_ names : list gostring) :
  (length match_ ≤ length names →
     ∃ m, makeParameters match_ names = Ok m ∧ size m ≤ length match_) ∧
  (length names < length match_ →
     makeParameters match_ names = Err IndexOutOfRange).
Proof.
  split.
  - intros Hlen.
    destruct (makeParameters_loop_ok match_ 0 names ∅ ltac:(simpl; lia))
      as (m & Hrun & _ & Hsize).
    exists m. split; [done|]. by rewrite map_size_empty in Hsize.
  - intros Hlen. apply makeParameters_loop_panic; simpl; lia.
Qed.

Lemma makeParameters_total_witness :
  (∃ m, makeParameters [str "1"] [str "x"; str "y"] = Ok m ∧ size m ≤ 1) ∧
  makeParameters [str "1"; str "2"] [str "x"] = Err IndexOutOfRange.
Proof.
  split.
  - apply (makeParameters_total [str "1"] [str "x"; str "y"]). simpl. lia.
  - apply (makeParameters_total [str "1"; str "2"] [str "x"]). simpl. lia.
Defined.

(** ** A route, end to end *)

(** C7: the template ["/user/{id}"], compiled with [ends] set, matches
    ["/user/42"] and binds [id] to ["42"] and nothing else; it matches
    neither ["/user/42/extra"] nor ["/user/"], the group [[^/]+] taking at
    least one byte that is not a separator. *)
Theorem user_route_bindings :
  ∃ p' re,
    compileParameters (H := Backtrack.engine) new_parametrizeable
      (str "/user/{id}") true = Ok p' ∧
    regex p' = Some re ∧
    MustCompile (str "^/user/([^/]+)$") = Some re ∧
    parameters p' = [str "id"] ∧
    bindPath p' re (str "/user/42") = Some (Ok {[ str "id" := str "42" ]}) ∧
    bindPath p' re (str "/user/42/extra") = None ∧
    bindPath p' re (str "/user/") = None.
Proof.
  eexists _, _. split_and!; [reflexivity|reflexivity|reflexivity|reflexivity|..].
  - vm_compute. reflexivity.
  - reflexivity.
  - reflexivity.
Qed.

(** ** The other examples of the spec, on the same engine *)

Example unbalanced_templates :
  braceIndices (str "/a/{id") = Err (UnbalancedBraces (str "/a/{id")) ∧
  braceIndices (str "/a/id}") = Err (UnbalancedBraces (str "/a/id}")) ∧
  braceIndices (str "/{a{b}") = Err (UnbalancedBraces (str "/{a{b}")) ∧
  braceIndices (str "/a/{}") = Err (EmptyPlaceholder (str "/a/{}")).
Proof. split_and!; reflexivity. Qed.

Example invalid_placeholders :
  compileParameters (H := Backtrack.engine) new_parametrizeable
    (str "/{:pattern}") true = Err (MissingParameterName (str ":pattern")) ∧
  compileParameters (H := Backtrack.engine) new_parametrizeable
    (str "/{id:}") true = Err (MissingParameterPattern (str "id:")) ∧
  compileParameters (H := Backtrack.engine) new_parametrizeable
    (str "/{id:(foo)}") true = Err (UnexpectedCapturingGroup (str "/{id:(foo)}")) ∧
  is_ok (compileParameters (H := Backtrack.engine) new_parametrizeable
           (str "/{id:(?:foo)}") true) = true.
Proof. split_and!; reflexivity. Qed.

Example constrained_route :
  ∃ p' re,
    compileParameters (H := Backtrack.engine) new_parametrizeable
      (str "/user/{id:[0-9]+}") true = Ok p' ∧
    regex p' = Some re ∧
    bindPath p' re (str "/user/abc") = None ∧
    bindPath p' re (str "/user/123") = Some (Ok {[ str "id" := str "123" ]}).
Proof.
  eexists _, _. split_and!; [reflexivity|reflexivity|reflexivity|].
  vm_compute. reflexivity.
Qed.

(** A router prefix: the pattern is open at the end, the match stops
    before ["/profile"]. *)
Example router_prefix :
  ∃ p' re,
    compileParameters (H := Backtrack.engine) new_parametrizeable
      (str "/user/{id:[0-9]+}") false = Ok p' ∧
    regex p' = Some re ∧
    FindStringSubmatch re (str "/user/123/profile") =
      Some [str "/user/123"; str "123"] ∧
    bindPath p' re (str "/user/123/profile") =
      Some (Ok {[ str "id" := str "123" ]}).
Proof.
  eexists _, _. split_and!; [reflexivity|reflexivity|reflexivity|].
  vm_compute. reflexivity.
Qed.

Example two_parameters :
  ∃ p' re,
    compileParameters (H := Backtrack.engine) new_parametrizeable
      (str "/a/{x}/b/{y:[a-z]+}") true = Ok p' ∧
    regex p' = Some re ∧
    bindPath p' re (str "/a/1/b/foo") =
      Some (Ok {[ str "x" := str "1"; str "y" := str "foo" ]}).
Proof.
  eexists _, _. split_and!; [reflexivity|reflexivity|].
  vm_compute. reflexivity.
Qed.

(** * Further properties of the code *)

(** ** The scanner *)

(** X1: the scanner accepts exactly the templates made of literal text
    without braces and of non-empty placeholders whose inner braces nest;
    on such a template it returns the offsets of the braces that delimit
    the placeholders. *)
Theorem braceIndices_accepts s :
  ((∃ idxs, braceIndices s = Ok idxs) ↔
   (∃ segs tail, s = template_text segs tail ∧
      Forall segment_wf segs ∧ brace_free tail)) ∧
  (∀ segs tail, s = template_text segs tail →
     Forall segment_wf segs → brace_free tail →
     braceIndices s = Ok (positions 0 segs)).
Proof.
  split; [split|].
  - intros [idxs (segs & tail & Hs & Hwf & Htail & _)%braceIndices_ok_inv].
    by exists segs, tail.
  - intros (segs & tail & -> & Hwf & Htail).
    exists (positions 0 segs). by apply braceIndices_template.
  - intros segs tail -> Hwf Htail. by apply braceIndices_template.
Qed.

Lemma template_braces_covered tail segs : ∀ pre j c,
  brace_free tail → Forall segment_wf segs → length pre ≤ j →
  (pre ++ template_text segs tail) !! j = Some c → is_brace c →
  ∃ k o cl, pair_of (positions (length pre) segs) k o cl ∧ o ≤ j ≤ cl.
Proof.
  induction segs as [|sg segs IH]; intros pre j c Htail Hwf Hj Hc Hbrace.
  - simpl in Hc. rewrite lookup_app_r in Hc by done.
    apply list_elem_of_lookup_2 in Hc. destruct Htail, Hbrace; by subst.
  - apply Forall_cons in Hwf as [Hsg Hwf].
    pose (o := length pre + length (literal sg)).
    pose (cl := o + 1 + length (body sg)).
    assert (Ho : o = length pre + length (literal sg)) by done.
    assert (Hcl : cl = o + 1 + length (body sg)) by done.
    clearbody o cl.
    destruct (Nat.lt_ge_cases j o) as [Hlt|Hge].
    + simpl in Hc. rewrite lookup_app_r, lookup_app_l in Hc by lia.
      apply list_elem_of_lookup_2 in Hc. destruct Hsg as [[? ?] _].
      destruct Hbrace; by subst.
    + destruct (Nat.le_gt_cases j cl) as [Hle|Hgt].
      * exists 0, o, cl. split; [|done]. subst o cl. by apply pair_of_0.
      * rewrite template_after in Hc.
        assert (Hlen : length (pre ++ literal sg ++ lbrace :: body sg ++ [rbrace]) ≤ j)
          by (rewrite length_after; lia).
        destruct (IH _ j c Htail Hwf Hlen Hc Hbrace) as (k & o' & c' & Hpair & Hin).
        exists (S k), o', c'. split; [|done].
        simpl positions. apply pair_of_S. by rewrite length_after in Hpair.
Qed.

(** X2: on success every brace of the input lies within a recorded pair:
    the text between the pairs, which the compiler copies as literal text,
    has no brace. *)
Theorem braceIndices_covers_braces s idxs j c :
  braceIndices s = Ok idxs → s !! j = Some c → is_brace c →
  ∃ k o cl, pair_of idxs k o cl ∧ o ≤ j ≤ cl.
Proof.
  intros (segs & tail & -> & Hwf & Htail & ->)%braceIndices_ok_inv Hc Hbrace.
  apply (template_braces_covered tail segs [] j c); [done|done|simpl; lia|done|done].
Qed.

Lemma braceIndices_covers_braces_witness :
  let s := str "/a/{x:[0-9]{2}}/b" in
  braceIndices s = Ok [3; 14] ∧ s !! 13 = Some rbrace ∧
  ∃ k o cl, pair_of [3; 14] k o cl ∧ o ≤ 13 ≤ cl.
Proof.
  intros s. split_and!; [reflexivity|reflexivity|].
  apply (braceIndices_covers_braces s [3; 14] 13 rbrace);
    [reflexivity|reflexivity|by right].
Defined.

Lemma same_braces_loop s t rest rest' : ∀ i level idx acc,
  same_braces rest rest' →
  same_outcome (braceIndices_loop s rest i level idx acc)
               (braceIndices_loop t rest' i level idx acc).
Proof.
  intros i level idx acc Hsame. revert i level idx acc.
  induction Hsame as [|a b rest rest' Hab Hsame IH]; intros i level idx acc.
  - simpl. by destruct (negb _).
  - destruct (ascii_cases a) as [-> | [-> | [Ha1 Ha2]]].
    + assert (b = lbrace) as ->.
      { destruct (ascii_cases b) as [-> | [-> | [Hb1 Hb2]]]; [done|done|].
        by rewrite (brace_delta_other b) in Hab. }
      rewrite !loop_lbrace. apply IH.
    + assert (b = rbrace) as ->.
      { destruct (ascii_cases b) as [-> | [-> | [Hb1 Hb2]]]; [done|done|].
        by rewrite (brace_delta_other b) in Hab. }
      rewrite !loop_rbrace. destruct (level - 1 =? 0)%Z.
      * destruct (i =? idx + 1); [done|apply IH].
      * destruct (level - 1 <? 0)%Z; [done|apply IH].
    + assert (b ≠ lbrace ∧ b ≠ rbrace) as [Hb1 Hb2].
      { rewrite (brace_delta_other a) in Hab by done.
        destruct (ascii_cases b) as [-> | [-> | ?]]; done. }
      rewrite !loop_other by done. apply IH.
Qed.

(** X3: the scanner looks at braces only: two strings with their braces
    at the same places give the same offsets, or fail in the same way. *)
Theorem braceIndices_same_braces s t :
  same_braces s t → same_outcome (braceIndices s) (braceIndices t).
Proof. intros Hsame. by apply same_braces_loop. Qed.

Lemma braceIndices_same_braces_witness :
  same_braces (str "/{a/b}:{c}") (str "({(:)}/{?}") ∧
  same_outcome (braceIndices (str "/{a/b}:{c}")) (braceIndices (str "({(:)}/{?}")).
Proof.
  assert (Hsame : same_braces (str "/{a/b}:{c}") (str "({(:)}/{?}")).
  { repeat constructor. }
  split; [done|]. by apply (braceIndices_same_braces _ _ Hsame).
Defined.

(** ** The compiler *)

Lemma splitParameter_err b e :
  splitParameter b = Err e →
  e = MissingParameterName b ∨ e = MissingParameterPattern b.
Proof.
  destruct (placeholder_body_exists b) as (name & sub & Hb).
  rewrite (splitParameter_body b name sub Hb).
  destruct (decide (name = [])); [intros [= <-]; by left|].
  destruct sub as [pattern|]; [|done].
  destruct (decide (pattern = [])); [intros [= <-]; by right|done].
Qed.

Lemma split_all_err segs e :
  split_all segs = Err e →
  ∃ k sg, segs !! k = Some sg ∧
    (e = MissingParameterName (body sg) ∨ e = MissingParameterPattern (body sg)).
Proof.
  induction segs as [|sg segs IH]; [done|]. simpl.
  destruct (splitParameter (body sg)) as [[name pattern]|e'] eqn:Hsp.
  - rewrite bind_ok. destruct (split_all segs) as [nps|e'']; [done|].
    intros [= <-]. destruct (IH eq_refl) as (k & sg' & Hk & He).
    by exists (S k), sg'.
  - intros [= <-]. exists 0, sg. split; [done|]. by apply splitParameter_err.
Qed.

(** The body of the [k]-th placeholder is the slice between its braces. *)
Lemma positions_body_slice tail segs : ∀ pre k sg,
  segs !! k = Some sg →
  ∃ o c, pair_of (positions (length pre) segs) k o c ∧
         slice (pre ++ template_text segs tail) (o + 1) c = Ok (body sg).
Proof.
  induction segs as [|sg0 segs IH]; intros pre k sg Hk; [done|].
  destruct k as [|k].
  - injection Hk as ->.
    exists (length pre + length (literal sg)),
           (length pre + length (literal sg) + 1 + length (body sg)).
    split; [by apply pair_of_0|].
    apply (slice_parts _ (pre ++ literal sg ++ [lbrace]) (body sg)
             (rbrace :: template_text segs tail)).
    + simpl. by rewrite <- !app_assoc.
    + rewrite !length_app. simpl. lia.
    + done.
  - simpl in Hk. rewrite template_after.
    destruct (IH (pre ++ literal sg0 ++ lbrace :: body sg0 ++ [rbrace]) k sg Hk)
      as (o & c & Hpair & Hslice).
    exists o, c. split; [|done].
    simpl positions. apply pair_of_S. by rewrite length_after in Hpair.
Qed.

(** X4: the panics of the compiler.  It panics with the error of the
    scanner, or with a missing name or a missing pattern in the body
    between a pair of braces the scanner found, or because the matching
    engine refuses the pattern, or because of the capturing groups; its
    own indexing and slicing never go out of range. *)
Theorem compileParameters_panics `{RegexpEngine} p uri ends e :
  compileParameters p uri ends = Err e →
  e ≠ IndexOutOfRange ∧
  ((braceIndices uri = Err e ∧
      (e = UnbalancedBraces uri ∨ e = EmptyPlaceholder uri)) ∨
   (∃ idxs k o c sub,
      braceIndices uri = Ok idxs ∧ pair_of idxs k o c ∧
      slice uri (o + 1) c = Ok sub ∧
      (e = MissingParameterName sub ∨ e = MissingParameterPattern sub)) ∨
   (∃ pattern, e = InvalidPattern pattern ∧ MustCompile pattern = None) ∨
   e = UnexpectedCapturingGroup uri).
Proof.
  intros Hrun.
  assert (Hcases :
    (braceIndices uri = Err e ∧
       (e = UnbalancedBraces uri ∨ e = EmptyPlaceholder uri)) ∨
    (∃ idxs k o c sub,
       braceIndices uri = Ok idxs ∧ pair_of idxs k o c ∧
       slice uri (o + 1) c = Ok sub ∧
       (e = MissingParameterName sub ∨ e = MissingParameterPattern sub)) ∨
    (∃ pattern, e = InvalidPattern pattern ∧ MustCompile pattern = None) ∨
    e = UnexpectedCapturingGroup uri).
  { destruct (braceIndices uri) as [idxs|e'] eqn:Hscan.
    - pose proof Hscan as (segs & tail & -> & Hwf & Htail & ->)%braceIndices_ok_inv.
      rewrite compileParameters_template in Hrun by done.
      destruct (split_all segs) as [nps|e'] eqn:Hsplit.
      + rewrite bind_ok in Hrun. cbv zeta in Hrun.
        destruct (MustCompile _) as [re|] eqn:Hre.
        * destruct (negb _); [|done]. injection Hrun as <-. by right; right; right.
        * injection Hrun as <-. right; right; left. by eexists.
      + injection Hrun as <-. right; left.
        apply split_all_err in Hsplit as (k & sg & Hk & He).
        destruct (positions_body_slice tail segs [] k sg Hk) as (o & c & Hpair & Hslice).
        by exists (positions 0 segs), k, o, c, (body sg).
    - unfold compileParameters in Hrun. rewrite Hscan in Hrun.
      injection Hrun as <-. left. split; [done|].
      apply loop_err_cases in Hscan as [[-> _] | [-> _]]; [by left|by right|done|lia]. }
  split; [|done].
  destruct Hcases as [[_ [-> | ->]] | [(? & ? & ? & ? & ? & _ & _ & _ & [-> | ->])
                       | [(? & -> & _) | ->]]]; done.
Qed.

Lemma compileParameters_panics_witness :
  let uri := str "/a/{x}/{:[0-9]+}" in
  compileParameters (H := Backtrack.engine) new_parametrizeable uri true =
    Err (MissingParameterName (str ":[0-9]+")) ∧
  ∃ idxs k o c sub,
    braceIndices uri = Ok idxs ∧ pair_of idxs k o c ∧
    slice uri (o + 1) c = Ok sub ∧
    MissingParameterName (str ":[0-9]+") = MissingParameterName sub.
Proof.
  intros uri.
  assert (Hrun : compileParameters (H := Backtrack.engine) new_parametrizeable uri true =
                 Err (MissingParameterName (str ":[0-9]+"))) by reflexivity.
  split; [done|].
  destruct (compileParameters_panics (H := Backtrack.engine) _ _ _ _ Hrun)
    as [_ [[Hscan _] | [(idxs & k & o & c & sub & ? & ? & ? & [He | He]) | [(? & He & _) | He]]]];
    try discriminate.
  by exists idxs, k, o, c, sub.
Defined.

(** X5: a template without braces is a static route: its pattern is the
    template itself between the anchors, not escaped, and the receiver's
    parameters are left as they are; it is refused when the matching
    engine finds a capturing group in it. *)
Theorem compileParameters_static `{RegexpEngine} p uri ends :
  brace_free uri →
  compileParameters p uri ends =
  let pattern := str "^" ++ uri ++ (if ends then str "$" else []) in
  match MustCompile pattern with
  | None => Err (InvalidPattern pattern)
  | Some re =>
      if NumSubexp re =? 0
      then Ok {| regex := Some re; parameters := parameters p |}
      else Err (UnexpectedCapturingGroup uri)
  end.
Proof.
  intros Hfree.
  pose proof (compileParameters_template p [] uri ends
                (List.Forall_nil segment_wf) Hfree) as Hrun.
  simpl in Hrun. rewrite Hrun. clear Hrun. cbv zeta.
  destruct (MustCompile _) as [re|]; [|done].
  destruct (NumSubexp re =? 0); simpl; [|done].
  by rewrite app_nil_r.
Qed.

Lemma compileParameters_static_witness :
  brace_free (str "/a(b)") ∧
  compileParameters (H := Backtrack.engine) new_parametrizeable (str "/a(b)") true =
    Err (UnexpectedCapturingGroup (str "/a(b)")) ∧
  ∃ re, compileParameters (H := Backtrack.engine) new_parametrizeable (str "/a.b") true =
          Ok {| regex := Some re; parameters := [] |}.
Proof.
  assert (Hfree : brace_free (str "/a(b)")) by by_decision.
  assert (Hfree' : brace_free (str "/a.b")) by by_decision.
  split_and!; [done| |].
  - rewrite (compileParameters_static (H := Backtrack.engine) _ _ true Hfree).
    reflexivity.
  - rewrite (compileParameters_static (H := Backtrack.engine) _ _ true Hfree').
    eexists. reflexivity.
Defined.

(** X6: the receiver matters only through its list of parameters, to which
    the names are appended: on two receivers the compilation of one
    template fails with the same panic, or succeeds with the same regexp
    and the same names appended.  Compiling twice on one receiver appends
    the names twice. *)
Theorem compileParameters_receiver `{RegexpEngine} p q uri ends :
  match compileParameters p uri ends, compileParameters q uri ends with
  | Ok p', Ok q' =>
      regex p' = regex q' ∧
      ∃ names, parameters p' = parameters p ++ names ∧
               parameters q' = parameters q ++ names
  | Err e, Err e' => e = e'
  | _, _ => False
  end.
Proof.
  destruct (braceIndices uri) as [idxs|e] eqn:Hscan.
  - pose proof Hscan as (segs & tail & -> & Hwf & Htail & ->)%braceIndices_ok_inv.
    rewrite !compileParameters_template by done.
    destruct (split_all segs) as [nps|e]; [|done].
    rewrite !bind_ok. cbv zeta.
    destruct (MustCompile _) as [re|]; [|done].
    destruct (negb _); [done|]. split; [done|]. by exists (names_of nps).
  - unfold compileParameters. by rewrite Hscan.
Qed.

Lemma split_all_same_bodies segs1 sg sg' segs2 :
  literal sg = literal sg' →
  splitParameter (body sg) = splitParameter (body sg') →
  split_all (segs1 ++ sg :: segs2) = split_all (segs1 ++ sg' :: segs2).
Proof.
  intros Hlit Hsp. induction segs1 as [|sg1 segs1 IH]; simpl.
  - by rewrite Hlit, Hsp.
  - by rewrite IH.
Qed.

Lemma balanced_app_brace_free b t :
  balanced b → brace_free t → balanced (b ++ t).
Proof.
  intros [Hzero Hpre] Ht. split.
  - by rewrite depth_app, Hzero, depth_brace_free.
  - intros n Hn. rewrite take_app, depth_app.
    rewrite (depth_brace_free (take _ t)) by by apply brace_free_take.
    destruct (Nat.le_gt_cases n (length b)) as [Hle|Hgt].
    + specialize (Hpre n Hle). lia.
    + rewrite take_ge by lia. lia.
Qed.

(** X7: an unconstrained placeholder and the same placeholder with the
    default pattern written out are interchangeable: [{name}] and
    [{name:[^/]+}] give the same pattern and the same names, hence the
    same compiled value; only the template named by the capturing-group
    panic differs. *)
Theorem explicit_default_pattern `{RegexpEngine} p segs1 segs2 lit name tail ends :
  let sg := {| literal := lit; body := name |} in
  let sg' := {| literal := lit; body := name ++ colon :: default_pattern |} in
  let uri := template_text (segs1 ++ sg :: segs2) tail in
  let uri' := template_text (segs1 ++ sg' :: segs2) tail in
  Forall segment_wf (segs1 ++ sg :: segs2) → brace_free tail →
  colon ∉ name →
  (∀ idxs idxs', braceIndices uri = Ok idxs → braceIndices uri' = Ok idxs' →
     assemblePattern uri ends idxs (parameters p) =
     assemblePattern uri' ends idxs' (parameters p)) ∧
  match compileParameters p uri ends, compileParameters p uri' ends with
  | Ok p', Ok q' => p' = q'
  | Err e, Err e' =>
      e = e' ∨ (e = UnexpectedCapturingGroup uri ∧ e' = UnexpectedCapturingGroup uri')
  | _, _ => False
  end.
Proof.
  intros sg sg' uri uri' Hwf Htail Hcolon.
  assert (Hname : name ≠ []).
  { apply Forall_app in Hwf as [_ [(_ & Hne & _) _]%Forall_cons]. done. }
  assert (Hwf' : Forall segment_wf (segs1 ++ sg' :: segs2)).
  { apply Forall_app in Hwf as [Hwf1 [(Hlit & _ & Hbal) Hwf2]%Forall_cons].
    apply Forall_app. split; [done|]. constructor; [|done].
    split_and!; [done|by destruct name|].
    change (body sg') with (body sg ++ colon :: default_pattern).
    apply balanced_app_brace_free; [done|by_decision]. }
  assert (Hsplit : split_all (segs1 ++ sg :: segs2) = split_all (segs1 ++ sg' :: segs2)).
  { apply split_all_same_bodies; [done|]. simpl.
    rewrite (splitParameter_body name name None) by by constructor.
    rewrite (splitParameter_body _ name (Some default_pattern)) by by constructor.
    by rewrite !decide_False. }
  split.
  - intros idxs idxs' Hscan Hscan'. unfold uri, uri' in *.
    rewrite braceIndices_template in Hscan, Hscan' by done.
    injection Hscan as <-. injection Hscan' as <-.
    by rewrite !assemblePattern_template, Hsplit.
  - unfold uri, uri'. rewrite !compileParameters_template by done.
    rewrite Hsplit.
    destruct (split_all (segs1 ++ sg' :: segs2)) as [nps|e]; [|by left].
    rewrite !bind_ok. cbv zeta.
    destruct (MustCompile _) as [re|]; [|by left].
    rewrite !length_app. simpl length.
    destruct (negb _); [by right|done].
Qed.

Lemma explicit_default_pattern_witness :
  let uri := str "/user/{id}/x" in
  let uri' := str "/user/{id:[^/]+}/x" in
  ∃ p', compileParameters (H := Backtrack.engine) new_parametrizeable uri true = Ok p' ∧
        compileParameters (H := Backtrack.engine) new_parametrizeable uri' true = Ok p'.
Proof.
  intros uri uri'.
  pose proof (explicit_default_pattern (H := Backtrack.engine) new_parametrizeable
                [] [] (str "/user/") (str "id") (str "/x") true) as Hsame.
  cbv zeta in Hsame.
  destruct Hsame as [_ Hsame]; [by_decision|by_decision|by_decision|].
  lazymatch type of Hsame with
  | match ?a with _ => _ end =>
      assert (Hrun : ∃ p', a = Ok p') by (eexists; reflexivity)
  end.
  destruct Hrun as [p' Hrun]. rewrite Hrun in Hsame.
  lazymatch type of Hsame with
  | match ?b with _ => _ end => destruct b as [q'|] eqn:Hrun'
  end; [|done].
  exists p'. split; [exact Hrun|]. subst q'. exact Hrun'.
Defined.

(** X8: the size of the pattern.  The bytes of the pattern and of the
    bodies of the placeholders together are those of the template, of the
    anchors and of the patterns in the groups: a static route gives a
    pattern longer than the template (the comment in the source says it
    is never larger), and a placeholder [{name}] adds 5 bytes less those
    of its name. *)
Theorem assemblePattern_length segs tail ends params pattern names :
  assemblePattern (template_text segs tail) ends (positions 0 segs) params =
    Ok (pattern, names) →
  ∃ nps, split_all segs = Ok nps ∧
    length pattern + sum_list_with (λ sg, length (body sg)) segs =
    length (template_text segs tail) + 1 + (if ends then 1 else 0) +
    sum_list_with (λ '(_, _, pat), length pat) nps.
Proof.
  rewrite assemblePattern_template.
  destruct (split_all segs) as [nps|e] eqn:Hsplit; [|done].
  rewrite bind_ok. intros [= <- <-]. exists nps. split; [done|].
  simpl length. rewrite !length_app.
  assert (Hlen : ∀ t, length (groups_text nps) + sum_list_with (λ sg, length (body sg)) segs
                      + length t =
                      length (template_text segs t) +
                      sum_list_with (λ '(_, _, pat), length pat) nps).
  { clear -Hsplit. revert nps Hsplit.
    induction segs as [|sg segs IH]; intros nps Hsplit t.
    - injection Hsplit as <-. simpl. lia.
    - simpl in Hsplit.
      destruct (splitParameter (body sg)) as [[name pat]|]; [|done].
      rewrite bind_ok in Hsplit.
      destruct (split_all segs) as [nps'|]; [|done].
      injection Hsplit as <-. specialize (IH nps' eq_refl t).
      unfold groups_text in *.
      cbn [map concat sum_list_with template_text].
      rewrite !length_app. cbn [length]. rewrite !length_app. cbn [length].
      change (length (str "(")) with 1. change (length (str ")")) with 1.
      lia. }
  specialize (Hlen tail). destruct ends; simpl; lia.
Qed.

Lemma assemblePattern_length_witness :
  let segs := [ {| literal := str "/"; body := str "id" |} ] in
  assemblePattern (template_text segs []) false (positions 0 segs) [] =
    Ok (str "^/([^/]+)", [str "id"]) ∧
  ∃ nps, split_all segs = Ok nps ∧
    length (str "^/([^/]+)") + sum_list_with (λ sg, length (body sg)) segs =
    length (template_text segs []) + 1 + 0 +
    sum_list_with (λ '(_, _, pat), length pat) nps.
Proof.
  intros segs. split; [reflexivity|].
  apply (assemblePattern_length segs [] false [] (str "^/([^/]+)") [str "id"]).
  reflexivity.
Defined.

(** ** The binder *)

(** The bindings of the binder, when no captured value lacks a name. *)
Lemma makeParameters_lookup match_ names :
  length match_ ≤ length names →
  ∃ m, makeParameters match_ names = Ok m ∧
       ∀ name, m !! name = last_binding names match_ name.
Proof.
  intros Hlen.
  destruct (makeParameters_loop_ok match_ 0 names ∅ ltac:(simpl; lia))
    as (m & Hrun & Hm & _).
  exists m. split; [done|]. intros name. rewrite Hm, drop_0.
  destruct (last_binding names match_ name); [done|apply lookup_empty].
Qed.

Lemma last_binding_take names : ∀ match_ name,
  last_binding (take (length match_) names) match_ name =
  last_binding names match_ name.
Proof.
  induction names as [|n names IH]; intros [|v match_] name; simpl; try done.
  by rewrite IH.
Qed.

(** X9: the names beyond the captured values are never read: the binder
    returns the same mapping when they are dropped. *)
Theorem makeParameters_surplus_names (match_ names : list gostring) :
  length match_ ≤ length names →
  makeParameters match_ names =
  makeParameters match_ (take (length match_) names).
Proof.
  intros Hlen.
  destruct (makeParameters_lookup match_ names Hlen) as (m & -> & Hm).
  destruct (makeParameters_lookup match_ (take (length match_) names))
    as (m' & -> & Hm'); [rewrite length_take; lia|].
  f_equal. apply map_eq. intros name.
  by rewrite Hm, Hm', last_binding_take.
Qed.

Lemma makeParameters_surplus_names_witness :
  makeParameters [str "1"] [str "x"; str "y"; str "z"] =
  makeParameters [str "1"] [str "x"].
Proof.
  apply (makeParameters_surplus_names [str "1"] [str "x"; str "y"; str "z"]).
  simpl. lia.
Defined.

Lemma makeParameters_loop_distinct match_ : ∀ i names params,
  i + length match_ ≤ length names →
  NoDup (take (length match_) (drop i names)) →
  (∀ name, name ∈ take (length match_) (drop i names) → params !! name = None) →
  ∃ m, makeParameters_loop match_ i names params = Ok m ∧
       size m = size params + length match_.
Proof.
  induction match_ as [|v match_ IH]; intros i names params Hlen Hdup Hnew.
  - exists params. split; [done|]. simpl. lia.
  - simpl in Hlen. simpl makeParameters_loop. unfold index.
    destruct (names !! i) as [n|] eqn:Hn.
    2:{ apply lookup_ge_None in Hn. lia. }
    rewrite bind_ok. rewrite (drop_S _ _ _ Hn) in Hdup, Hnew. simpl in Hdup, Hnew.
    apply NoDup_cons in Hdup as [Hnotin Hdup].
    destruct (IH (S i) names (<[n:=v]> params) ltac:(lia) Hdup) as (m & -> & Hsize).
    + intros name Hin. rewrite lookup_insert_ne; [|by intros ->].
      apply Hnew. by right.
    + exists m. split; [done|].
      rewrite Hsize, map_size_insert_None by (apply Hnew; by left).
      simpl. lia.
Qed.

(** X10: when the names that are used are distinct, the mapping has one
    entry for each captured value, and the name at each position is bound
    to the value at that position. *)
Theorem makeParameters_distinct (match_ names : list gostring) :
  length match_ ≤ length names →
  NoDup (take (length match_) names) →
  ∃ m, makeParameters match_ names = Ok m ∧
    size m = length match_ ∧
    ∀ i name v, names !! i = Some name → match_ !! i = Some v →
                m !! name = Some v.
Proof.
  intros Hlen Hdup.
  destruct (makeParameters_loop_distinct match_ 0 names ∅) as (m & Hrun & Hsize);
    [simpl; lia|by rewrite drop_0|intros; apply lookup_empty|].
  exists m. split_and!; [done|by rewrite map_size_empty in Hsize|].
  intros i name v Hn Hv.
  destruct (makeParameters_lookup match_ names Hlen) as (m' & Hrun' & Hm).
  unfold makeParameters in Hrun'. rewrite Hrun in Hrun'. injection Hrun' as <-.
  rewrite Hm. apply last_binding_Some. exists i. split_and!; [done|done|].
  intros j Hij Hj Hname.
  assert (Hi : i < length match_) by by eapply lookup_lt_Some.
  assert (i = j); [|lia].
  apply (NoDup_lookup _ i j name Hdup); by rewrite lookup_take_lt.
Qed.

Lemma makeParameters_distinct_witness :
  let match_ := [str "1"; str "foo"] in
  let names := [str "x"; str "y"; str "x"] in
  ∃ m, makeParameters match_ names = Ok m ∧ size m = 2 ∧
       m !! str "x" = Some (str "1") ∧ m !! str "y" = Some (str "foo").
Proof.
  intros match_ names.
  destruct (makeParameters_distinct match_ names) as (m & Hrun & Hsize & Hbind).
  - simpl. lia.
  - by_decision.
  - exists m. split_and!; [done|done| |].
    + by apply (Hbind 0).
    + by apply (Hbind 1).
Defined.

(** ** The compiler and the binder together *)

(** X11: after a successful compilation on a fresh receiver the binder
    does not panic on as many captured values as the pattern has groups,
    and the keys of the mapping are the names of the placeholders: the
    post-check of the compiler is what makes the binder safe. *)
Theorem compile_then_bind `{RegexpEngine} uri ends p' re caps :
  compileParameters new_parametrizeable uri ends = Ok p' →
  regex p' = Some re →
  length caps = NumSubexp re →
  ∃ m, makeParameters caps (parameters p') = Ok m ∧
    (∀ name, is_Some (m !! name) ↔ name ∈ parameters p') ∧
    (∀ i name v, parameters p' !! i = Some name → caps !! i = Some v →
       (∀ j, i < j → parameters p' !! j ≠ Some name) → m !! name = Some v).
Proof.
  intros Hrun Hre Hcaps.
  destruct (compileParameters_appends _ _ _ _ Hrun) as (names & re' & Hnames & Hre' & Hlen).
  simpl in Hnames. rewrite Hre in Hre'. injection Hre' as <-.
  assert (Hsame : length caps = length (parameters p')) by (rewrite Hnames; lia).
  destruct (makeParameters_lookup caps (parameters p') ltac:(lia)) as (m & Hm & Hlook).
  exists m. split_and!; [done| |].
  - intros name. rewrite Hlook. split.
    + intros [v (i & Hi & _)%last_binding_Some]. by eapply list_elem_of_lookup_2.
    + intros (i & Hi)%list_elem_of_lookup_1.
      destruct (last_binding (parameters p') caps name) as [v|] eqn:Hlast; [by eexists|].
      exfalso. apply (proj1 (last_binding_None _ _ _) Hlast i); [|done].
      apply lookup_lt_Some in Hi. lia.
  - intros i name v Hi Hv Hlast. rewrite Hlook.
    apply last_binding_Some. exists i. split_and!; [done|done|].
    intros j Hij _. by apply Hlast.
Qed.

Lemma compile_then_bind_witness :
  ∃ p' re m,
    compileParameters (H := Backtrack.engine) new_parametrizeable
      (str "/a/{x}/b/{y:[a-z]+}") true = Ok p' ∧
    regex p' = Some re ∧
    makeParameters [str "1"; str "foo"] (parameters p') = Ok m ∧
    (∀ name, is_Some (m !! name) ↔ name ∈ parameters p').
Proof.
  assert (Hrun : ∃ p' re, compileParameters (H := Backtrack.engine) new_parametrizeable
                            (str "/a/{x}/b/{y:[a-z]+}") true = Ok p' ∧
                          regex p' = Some re ∧ NumSubexp re = 2).
  { eexists _, _. split_and!; reflexivity. }
  destruct Hrun as (p' & re & Hrun & Hre & Hnum).
  destruct (compile_then_bind (H := Backtrack.engine) _ _ p' re [str "1"; str "foo"]
              Hrun Hre) as (m & Hm & Hkeys & _); [by rewrite Hnum|].
  by exists p', re, m.
Defined.

(** ** The configuration *)

Section config_facts.
Variable Contains : list gostring -> gostring -> bool.

Lemma authorized_are_strings key allowed :
  Config.authorizedValues !! key = Some allowed →
  Config.configValidation !! key = Some Config.String.
Proof.
  unfold Config.authorizedValues. cbn [list_to_map foldr uncurry].
  rewrite !lookup_insert_Some, lookup_empty.
  intros [[<- _] | [_ [[<- _] | [_ [=]]]]]; reflexivity.
Qed.

Lemma validateConfig_loop_cons key v entries valid :
  Config.validateConfig_loop Contains ((key, v) :: entries) valid =
  match Config.validateEntry Contains v key with
  | Config.Panic f => Config.Panic f
  | Config.Return (Some _) => Config.validateConfig_loop Contains entries false
  | Config.Return None => Config.validateConfig_loop Contains entries valid
  end.
Proof. reflexivity. Qed.

Lemma validateConfig_loop_spec entries : ∀ valid b,
  Config.validateConfig_loop Contains entries valid = Config.Return b ↔
  Forall (entry_checked Contains) entries ∧
  b = valid && forallb (entry_valid Contains) entries.
Proof.
  induction entries as [|[key v] entries IH]; intros valid b.
  - cbn [Config.validateConfig_loop forallb]. rewrite andb_true_r. split.
    + intros [= <-]. by split.
    + by intros [_ ->].
  - rewrite validateConfig_loop_cons, Forall_cons. cbn [forallb].
    unfold entry_valid at 1, entry_checked at 1. cbn [fst snd].
    destruct (Config.validateEntry Contains v key) as [[err|]|f].
    + rewrite IH, andb_false_l, andb_false_r. split.
      * intros [Hall ->]. split; [|done]. split; [by eexists|done].
      * by intros [[_ Hall] ->].
    + rewrite IH, andb_true_l. split.
      * intros [Hall ->]. split; [|done]. split; [by eexists|done].
      * by intros [[_ Hall] ->].
    + split; [done|]. by intros [[[r Hr] _] _].
Qed.

Lemma forallb_Permutation {A} (f : A → bool) l l' :
  l ≡ₚ l' → forallb f l = forallb f l'.
Proof.
  induction 1 as [|x l l' _ IH|x y l|l l' l'' _ IH1 _ IH2]; simpl.
  - done.
  - by rewrite IH.
  - by rewrite !andb_assoc, (andb_comm (f y)).
  - by rewrite IH1.
Qed.

(** X12: the verdict of [validateConfig] does not depend on the order in
    which [range] visits the map: if it returns for one order, it returns
    the same for every order. *)
Theorem validateConfig_order entries entries' b :
  entries ≡ₚ entries' →
  Config.validateConfig Contains entries = Config.Return b →
  Config.validateConfig Contains entries' = Config.Return b.
Proof.
  unfold Config.validateConfig. rewrite !validateConfig_loop_spec.
  intros Hperm [Hall ->]. split.
  - by rewrite <- Hperm.
  - by rewrite (forallb_Permutation _ _ _ Hperm).
Qed.

(** X13: a successful [Set] is read back by [Get], and by [GetString] or
    [GetBool] when the value is a string or a bool, and leaves the other
    entries as they are; it returns only if the map is loaded and the
    entry passes [validateEntry]. *)
Theorem Set_then_Get config key v config' :
  Config.Set_ Contains config key v = Config.Return config' →
  Config.IsLoaded config = true ∧ Config.IsLoaded config' = true ∧
  Config.validateEntry Contains v key = Config.Return None ∧
  Config.Get config' key = Config.Return v ∧
  (∀ k, k ≠ key → Config.Get config' k = Config.Get config k) ∧
  (∀ s, v = Config.Str s → Config.GetString config' key = Config.Return s) ∧
  (∀ b, v = Config.Boolean b → Config.GetBool config' key = Config.Return b).
Proof.
  unfold Config.Set_.
  destruct (Config.validateEntry Contains v key) as [[err|]|f]; [done| |done].
  destruct config as [m|]; [|done]. intros [= <-].
  unfold Config.Get, Config.GetString, Config.GetBool. cbn [default from_option].
  unfold id. rewrite lookup_insert_eq.
  split_and!; [done|done|done|done| | |].
  - intros k Hk. by rewrite lookup_insert_ne.
  - by intros s ->.
  - by intros b ->.
Qed.

(** X14: [Set] keeps a valid configuration valid: if [validateConfig]
    returns true before a successful [Set], it returns true after it, in
    whatever order the entries are visited. *)
Theorem Set_keeps_valid config key v config' entries entries' :
  Config.visits config entries →
  Config.validateConfig Contains entries = Config.Return true →
  Config.Set_ Contains config key v = Config.Return config' →
  Config.visits config' entries' →
  Config.validateConfig Contains entries' = Config.Return true.
Proof.
  unfold Config.visits, Config.validateConfig.
  rewrite !validateConfig_loop_spec, !andb_true_l.
  intros Hvisits [_ Hvalid] Hset Hvisits'.
  assert (Hold : ∀ k x, default ∅ config !! k = Some x →
                        entry_valid Contains (k, x) = true).
  { intros k x Hk. symmetry in Hvalid. rewrite forallb_forall in Hvalid.
    apply Hvalid. apply list_elem_of_In. rewrite Hvisits.
    by apply elem_of_map_to_list. }
  unfold Config.Set_ in Hset.
  destruct (Config.validateEntry Contains v key) as [[err|]|f] eqn:Hv; [done| |done].
  destruct config as [m|]; [|done]. injection Hset as <-.
  cbn [default from_option] in *. unfold id in *.
  assert (Hnew : ∀ e, e ∈ entries' → entry_valid Contains e = true).
  { intros [k x]. rewrite Hvisits', elem_of_map_to_list.
    destruct (decide (key = k)) as [<-|Hne].
    - rewrite lookup_insert_eq. intros [= <-]. unfold entry_valid. cbn [fst snd].
      by rewrite Hv.
    - rewrite lookup_insert_ne by done. apply Hold. }
  split.
  - apply Forall_forall. intros [k x] Hin. specialize (Hnew _ Hin).
    unfold entry_valid, entry_checked in *. cbn [fst snd] in *.
    destruct (Config.validateEntry Contains x k) as [[?|]|?]; [done|by eexists|done].
  - symmetry. apply forallb_forall. intros e Hin. apply Hnew.
    by apply list_elem_of_In.
Qed.

(** X15: the panics of [validateEntry].  It panics exactly on a nil value
    under a key that has a kind in [configValidation], and on a value of
    kind string that is not a [string] under a key that has authorized
    values; in every other case it returns (an error or nil). *)
Theorem validateEntry_panics v key f :
  Config.validateEntry Contains v key = Config.Panic f ↔
  (is_Some (Config.configValidation !! key) ∧ v = Config.Nil ∧
     f = Config.NilDereference) ∨
  (is_Some (Config.authorizedValues !! key) ∧
     (∃ data, v = Config.Dyn Config.String data) ∧ f = Config.NotAString).
Proof.
  unfold Config.validateEntry. split.
  - destruct (Config.configValidation !! key) as [kind|] eqn:Hkind; [|done].
    destruct v as [|s|b|k data]; cbn [Config.kind_of].
    + intros [= <-]. left. split_and!; [by eexists|done|done].
    + case_bool_decide; [done|].
      destruct (Config.authorizedValues !! key); [|done]. by destruct (negb _).
    + case_bool_decide as Hk; [done|].
      destruct (Config.authorizedValues !! key) as [allowed|] eqn:Hauth; [|done].
      apply authorized_are_strings in Hauth. rewrite Hauth in Hkind.
      injection Hkind as <-. destruct Hk. done.
    + case_bool_decide as Hk; [done|].
      destruct (Config.authorizedValues !! key) as [allowed|] eqn:Hauth; [|done].
      intros [= <-]. right. split_and!; [by eexists| |done].
      apply authorized_are_strings in Hauth. rewrite Hauth in Hkind.
      injection Hkind as <-. exists data. f_equal.
      by destruct (Config.Kind_eq_dec k Config.String) as [|Hne]; [|destruct Hk].
  - intros [([kind Hkind] & -> & ->) | ([allowed Hauth] & [data ->] & ->)].
    + by rewrite Hkind.
    + rewrite (authorized_are_strings _ _ Hauth), Hauth. cbn [Config.kind_of].
      by rewrite bool_decide_eq_false_2 by (intros Hne; by destruct Hne).
Qed.

(** X16: after [Clear] nothing is loaded: [IsLoaded] is false, every read
    panics with the message of a missing entry, [Set] never returns, and
    [validateConfig], which has no entry to visit, returns true. *)
Theorem Clear_unloads config key v :
  let config' := Config.Clear config in
  Config.IsLoaded config' = false ∧
  Config.Get config' key = Config.Panic (Config.DoesNotExist key) ∧
  Config.GetString config' key = Config.Panic (Config.DoesNotExist key) ∧
  Config.GetBool config' key = Config.Panic (Config.DoesNotExist key) ∧
  (∀ r, Config.Set_ Contains config' key v ≠ Config.Return r) ∧
  (∀ entries, Config.visits config' entries →
     Config.validateConfig Contains entries = Config.Return true).
Proof.
  cbn zeta. unfold Config.Clear. split_and!; [done|done|done|done| |].
  - intros r. unfold Config.Set_.
    by destruct (Config.validateEntry Contains v key) as [[err|]|f].
  - intros entries. unfold Config.visits. cbn [default from_option].
    rewrite map_to_list_empty. by intros ->%Permutation_nil_r.
Qed.

(** X17: [validateEntry] looks at the kind of a value, [GetString] at its
    type.  Under a key of kind string without authorized values, a value
    of kind string that is not a [string] is accepted by [Set], and then
    [Get] returns it and [GetString] panics. *)
Theorem Set_then_GetString_panics config key data :
  Config.configValidation !! key = Some Config.String →
  Config.authorizedValues !! key = None →
  Config.IsLoaded config = true →
  ∃ config',
    Config.Set_ Contains config key (Config.Dyn Config.String data) =
      Config.Return config' ∧
    Config.Get config' key = Config.Return (Config.Dyn Config.String data) ∧
    Config.GetString config' key = Config.Panic (Config.IsNotString key).
Proof.
  intros Hkind Hauth Hloaded.
  destruct config as [m|]; [|done].
  exists (Some (<[key := Config.Dyn Config.String data]> m)).
  unfold Config.Set_, Config.validateEntry, Config.Get, Config.GetString.
  rewrite Hkind, Hauth. cbn [Config.kind_of default from_option]. unfold id.
  rewrite bool_decide_eq_false_2 by (intros Hne; by destruct Hne).
  by rewrite lookup_insert_eq.
Qed.

End config_facts.

Lemma validateConfig_order_witness :
  let entries := [ (str "port", Config.Dyn Config.Int 8080);
                   (str "debug", Config.Boolean true) ] in
  reverse entries ≡ₚ entries ∧
  Config.validateConfig contains_string (reverse entries) = Config.Return false ∧
  Config.validateConfig contains_string entries = Config.Return false.
Proof.
  intros entries.
  assert (Hperm : reverse entries ≡ₚ entries) by apply reverse_Permutation.
  split_and!; [done|vm_compute; reflexivity|].
  apply (validateConfig_order contains_string (reverse entries) entries false Hperm).
  vm_compute. reflexivity.
Defined.

Lemma Set_then_Get_witness :
  let config := Some {[ str "debug" := Config.Boolean true ]} in
  ∃ config',
    Config.Set_ contains_string config (str "protocol") (Config.Str (str "https")) =
      Config.Return config' ∧
    Config.Get config' (str "protocol") = Config.Return (Config.Str (str "https")) ∧
    Config.GetString config' (str "protocol") = Config.Return (str "https") ∧
    Config.GetBool config' (str "debug") = Config.Return true.
Proof.
  intros config.
  assert (Hset : ∃ config', Config.Set_ contains_string config (str "protocol")
                              (Config.Str (str "https")) = Config.Return config').
  { exists (Some (<[str "protocol" := Config.Str (str "https")]>
                    {[ str "debug" := Config.Boolean true ]})).
    reflexivity. }
  destruct Hset as [config' Hset].
  destruct (Set_then_Get contains_string _ _ _ _ Hset)
    as (_ & _ & _ & Hget & Hother & Hstring & _).
  exists config'. split_and!; [done|done|by apply Hstring|].
  unfold Config.GetBool.
  assert (Hdebug : Config.Get config' (str "debug") = Config.Get config (str "debug")).
  { apply Hother. discriminate. }
  unfold Config.Get in Hdebug.
  destruct (default ∅ config' !! str "debug") as [x|]; [|discriminate Hdebug].
  injection Hdebug as ->. reflexivity.
Defined.

Lemma Set_keeps_valid_witness :
  let config := Some {[ str "debug" := Config.Boolean true ]} in
  ∃ config',
    Config.Set_ contains_string config (str "port") (Config.Dyn Config.Float64 8080) =
      Config.Return config' ∧
    Config.validateConfig contains_string (map_to_list (default ∅ config')) =
      Config.Return true.
Proof.
  intros config.
  assert (Hset : ∃ config', Config.Set_ contains_string config (str "port")
                              (Config.Dyn Config.Float64 8080) = Config.Return config').
  { exists (Some (<[str "port" := Config.Dyn Config.Float64 8080]>
                    {[ str "debug" := Config.Boolean true ]})).
    reflexivity. }
  destruct Hset as [config' Hset]. exists config'. split; [done|].
  apply (Set_keeps_valid contains_string config (str "port")
           (Config.Dyn Config.Float64 8080) config'
           (map_to_list (default ∅ config)));
    [unfold Config.visits; reflexivity| |done|unfold Config.visits; reflexivity].
  vm_compute. reflexivity.
Defined.

Lemma Set_then_GetString_panics_witness :
  ∃ config',
    Config.Set_ contains_string (Some ∅) (str "appName")
      (Config.Dyn Config.String 0) = Config.Return config' ∧
    Config.GetString config' (str "appName") =
      Config.Panic (Config.IsNotString (str "appName")).
Proof.
  destruct (Set_then_GetString_panics contains_string (Some ∅) (str "appName") 0)
    as (config' & Hset & _ & Hget); [reflexivity|reflexivity|reflexivity|].
  by exists config'.
Defined.
